(** * blob/parser.py: the resolution pipeline of the library builder

    A shallow embedding of [Parser] (src/blob/parser.py): option merge
    ([merge_repository_options]), module loading ([_parse_module]),
    availability gating ([prepare_modules]) and the dependency closure
    ([resolve_dependencies]), with the properties the specification states
    about them; then the project document ([parse_configuration]) and
    repository loading ([parse_repository]), and further properties of
    all six.

    Python objects that are shared and compared by identity (Option and
    Module instances) are references into a store; Python dicts that are
    iterated are insertion-ordered association lists; dicts that are only
    looked up are finite maps. *)

From Stdlib Require Import Ascii.
From stdpp Require Import base option list strings gmap fin_maps functions.

(** ** Exceptions and results *)

(** The exception classes the code of parser.py can raise or let through.
    [BlobException] is the project's own class (blob/exception.py); the
    others are Python built-ins. [OtherError] stands for any further
    subclass of [Exception] raised by user callbacks or by file access. *)
Inductive exn : Type :=
| BlobException (msg : string)
| KeyError (key : string)
| TypeError (msg : string)
| LookupError (msg : string)
| OtherError (msg : string).

Inductive result (A : Type) : Type :=
| Ok (a : A)
| Raise (e : exn).
Arguments Ok {A} a.
Arguments Raise {A} e.

Definition rbind {A B} (r : result A) (k : A → result B) : result B :=
  match r with
  | Ok a => k a
  | Raise e => Raise e
  end.

Declare Scope result_scope.
Delimit Scope result_scope with res.
Notation "'let*' x := r 'in' k" := (rbind r (λ x, k))
  (at level 10, x name, r at level 100, k at level 200) : result_scope.
Open Scope result_scope.

(** [str(e)] as used by ["... %s" % e]. *)
Definition str_of_exn (e : exn) : string :=
  match e with
  | BlobException msg => msg
  | KeyError key => "'" +:+ key +:+ "'"
  | TypeError msg => msg
  | LookupError msg => msg
  | OtherError msg => msg
  end.

(** ** Insertion-ordered dicts *)

(** A Python [dict] with string keys that the code iterates over:
    an association list in insertion order. [dict_set] is [d[k] = v]:
    an existing key keeps its position, a new one goes to the end. *)
Module PyDict.

Abbreviation dict V := (list (string * V)) (only parsing).

Fixpoint dict_get {V} (d : dict V) (k : string) : option V :=
  match d with
  | [] => None
  | (k', v) :: d' => if decide (k = k') then Some v else dict_get d' k
  end.

Fixpoint dict_set {V} (d : dict V) (k : string) (v : V) : dict V :=
  match d with
  | [] => [(k, v)]
  | (k', v') :: d' =>
      if decide (k = k') then (k, v) :: d' else (k', v') :: dict_set d' k v
  end.

Definition dict_keys {V} (d : dict V) : list string := d.*1.
Definition dict_values {V} (d : dict V) : list V := d.*2.

(** [d.get(k, dflt)] *)
Definition dict_get_default {V} (d : dict V) (k : string) (dflt : V) : V :=
  default dflt (dict_get d k).

(** What a subscript expression [d[key]] is evaluated with: the code
    subscripts dicts with strings and, in one place, with the list that
    [str.split] returned. *)
Inductive pykey : Type :=
| KStr (s : string)
| KList (l : list string).

(** [d[key]]: a list is unhashable, a missing string key is a
    [KeyError]. *)
Definition dict_getitem {V} (d : dict V) (key : pykey) : result V :=
  match key with
  | KList _ => Raise (TypeError "unhashable type: 'list'")
  | KStr k =>
      match dict_get d k with
      | Some v => Ok v
      | None => Raise (KeyError k)
      end
  end.

End PyDict.
Import PyDict.

(** ** [str.split] with a one-character separator *)

Fixpoint split (sep : ascii) (s : string) : list string :=
  match s with
  | EmptyString => [""]
  | String c s' =>
      if decide (c = sep) then "" :: split sep s'
      else match split sep s' with
           | [] => [String c ""]
           | w :: ws => String c w :: ws
           end
  end.

Definition colon : ascii := ":"%char.

(** ["%s:%s" % (a, b)] *)
Definition qualified (a b : string) : string := a +:+ ":" +:+ b.

(** ["%s" % x] for an attribute that may still be [None]. *)
Definition pct_s (x : option string) : string := default "None" x.

(** ** Data model *)

(** Object identity. *)
Definition ref : Type := nat.

(** Modelled from the spec: the class [repository.Option]
    (blob/repository.py is not among the sources). An Option has a [name]
    and a [value] that is a string or unset ([None]). *)
Record Option : Type := {
  opt_name : string;
  opt_value : option string
}.

(** The Option objects, by identity. *)
Abbreviation ostore := (ref → Option) (only parsing).

(** Opaque handle of a callback pulled out of a definition unit. *)
Definition callback : Type := nat.

(** Modelled from the spec: the class [module.Module] (blob/module.py is
    not among the sources): owning repository (by name), loading-unit
    path, directory, [name] (unset until [init] runs), the table
    [functions] of callbacks and the list [dependencies] of qualified
    names. *)
Record Module_ : Type := {
  mod_repository : option string;
  mod_filename : string;
  mod_path : string;
  mod_name : option string;
  mod_functions : gmap string callback;
  mod_dependencies : list string
}.

(** The Module objects, by identity. *)
Abbreviation mstore := (ref → Module_) (only parsing).

(** Modelled from the spec: the class [repository.Repository], once its
    modules are loaded: [name], base [path], [modules] (loading-unit path
    to Module object) and [options] (option name to Option object). *)
Record Repository : Type := {
  repo_name : option string;
  repo_path : string;
  repo_modules : dict ref;
  repo_options : dict ref
}.

(** Modelled from the spec: the class [environment.Environment]: the
    registry [modules] from qualified name to Module object. *)
Record Environment : Type := {
  env_modules : gmap string ref
}.

(** [Parser.__init__] state. *)
Record Parser : Type := {
  repositories : dict Repository;
  modules : dict ref;
  environment : Environment
}.

(** ** Option merge: [Parser.merge_repository_options] *)

(** [option.value = value] on the Option object [o]. *)
Definition set_value (value : string) (s : ostore) (o : ref) : ostore :=
  <[o := {| opt_name := opt_name (s o); opt_value := Some value |}]> s.

(** Lines 160-168: the body of the inner loop that files one declared
    Option under its qualified name and under its bare name. *)
Definition index_option (repo_name : string)
    (idx : dict ref * dict (list ref)) (item : string * ref)
    : dict ref * dict (list ref) :=
  let '(repo_options_by_full_name, repo_options_by_option_name) := idx in
  let '(config_name, value) := item in
  let name := qualified repo_name config_name in
  let option_list := dict_get_default repo_options_by_option_name config_name [] in
  (dict_set repo_options_by_full_name name value,
   dict_set repo_options_by_option_name config_name (option_list ++ [value])).

(** Lines 159-168: both indices over all repositories. *)
Definition build_indices (repos : dict Repository)
    : dict ref * dict (list ref) :=
  foldl (λ idx '(repo_name, repo),
           foldl (index_option repo_name) idx (repo_options repo))
        ([], []) repos.

(** Lines 173-187: the body of the override loop for one entry of
    [config_options]. The store is threaded; an exception leaves it as it
    was when the exception was raised. In the qualified branch the code
    subscripts the index with [name], which at that point is the list
    returned by [split]. *)
Definition apply_override
    (repo_options_by_full_name : dict ref)
    (repo_options_by_option_name : dict (list ref))
    (entry : string * string) (s : ostore) : result unit * ostore :=
  let '(config_name, value) := entry in
  let name := split colon config_name in
  match name with
  | [repo_name; option_name] =>
      if decide (repo_name = "") then
        match dict_getitem repo_options_by_option_name (KStr option_name) with
        | Ok options => (Ok (), foldl (set_value value) s options)
        | Raise e => (Raise e, s)
        end
      else
        match dict_getitem repo_options_by_full_name (KList name) with
        | Ok option => (Ok (), set_value value s option)
        | Raise e => (Raise e, s)
        end
  | [_; _; _] => (Ok (), s)
  | _ => (Raise (BlobException ("Invalid option '" +:+ config_name +:+ "'")), s)
  end.

(** Lines 172-187: the override loop. *)
Fixpoint apply_overrides
    (by_full : dict ref) (by_name : dict (list ref))
    (config_options : dict string) (s : ostore) : result unit * ostore :=
  match config_options with
  | [] => (Ok (), s)
  | entry :: rest =>
      match apply_override by_full by_name entry s with
      | (Ok _, s') => apply_overrides by_full by_name rest s'
      | (Raise e, s') => (Raise e, s')
      end
  end.

Definition unknown_value_msg (option_name : string) : string :=
  "Unknown value for option '" +:+ option_name +:+
  "'.Please provide a value in the configuration file.".

(** Lines 190-193: the scan over [repo_options_by_full_name.values()]. *)
Fixpoint check_values (s : ostore) (options : list ref) : result unit :=
  match options with
  | [] => Ok ()
  | option :: rest =>
      match opt_value (s option) with
      | None => Raise (BlobException (unknown_value_msg (opt_name (s option))))
      | Some _ => check_values s rest
      end
  end.

Definition merge_repository_options (self : Parser)
    (config_options : dict string) (s : ostore)
    : result (dict ref) * ostore :=
  let '(repo_options_by_full_name, repo_options_by_option_name) :=
    build_indices (repositories self) in
  match apply_overrides repo_options_by_full_name repo_options_by_option_name
          config_options s with
  | (Raise e, s') => (Raise e, s')
  | (Ok _, s') =>
      match check_values s' (dict_values repo_options_by_full_name) with
      | Raise e => (Raise e, s')
      | Ok _ => (Ok repo_options_by_full_name, s')
      end
  end.

(** ** Module loading: [Parser._parse_module] *)

Section Loader.

(** Lines 81-86: [open], [compile] and [exec] of a definition unit give
    the namespace [local] of its top-level names, or raise. A name bound
    to [None] reads like an absent one through [local.get]. *)
Variable exec_unit : string → result (gmap string callback).

(** [os.path.dirname] *)
Variable dirname : string → string.

(** Calling the [init] callback on the Module object: it returns the
    object as the callback left it, or raises. *)
Variable call_init : callback → Module_ → result Module_.

(** Modelled from the spec: the constructor [module.Module(repo, filename,
    path)] (blob/module.py is not among the sources): name unset, no
    callbacks, no dependencies. *)
Definition Module_new (repo : Repository) (filename path : string) : Module_ :=
  {| mod_repository := repo_name repo;
     mod_filename := filename;
     mod_path := path;
     mod_name := None;
     mod_functions := ∅;
     mod_dependencies := [] |}.

Definition set_function (m : Module_) (functionname : string) (f : callback)
    : Module_ :=
  {| mod_repository := mod_repository m;
     mod_filename := mod_filename m;
     mod_path := mod_path m;
     mod_name := mod_name m;
     mod_functions := <[functionname := f]> (mod_functions m);
     mod_dependencies := mod_dependencies m |}.

Definition required_functions : list string := ["init"; "prepare"; "build"].

(** Lines 91-95 *)
Fixpoint get_functions (local : gmap string callback)
    (functionnames : list string) (m : Module_) : result Module_ :=
  match functionnames with
  | [] => Ok m
  | functionname :: rest =>
      match local !! functionname with
      | None =>
          Raise (BlobException ("No function '" +:+ functionname +:+ "' found!"))
      | Some f => get_functions local rest (set_function m functionname f)
      end
  end.

Definition no_name_msg : string :=
  "The init(module) function must set a module name! " +:+
  "Please use the set_name() method.".

(** Lines 81-106: the body of the [try] statement. *)
Definition parse_module_body (repo : Repository) (modulefile : string)
    : result Module_ :=
  let* local := exec_unit modulefile in
  let m := Module_new repo modulefile (dirname modulefile) in
  let* m := get_functions local required_functions m in
  let* init :=
    match mod_functions m !! "init" with
    | Some f => Ok f
    | None => Raise (KeyError "init")
    end in
  let* m := call_init init m in
  match mod_name m with
  | None => Raise (BlobException no_name_msg)
  | Some _ => Ok m
  end.

(** Lines 107-108: every [Exception] is rewrapped. *)
Definition _parse_module (repo : Repository) (modulefile : string)
    : result Module_ :=
  match parse_module_body repo modulefile with
  | Ok m => Ok m
  | Raise e =>
      Raise (BlobException
               ("While parsing '" +:+ modulefile +:+ "': " +:+ str_of_exn e))
  end.

End Loader.

(** ** Availability gate: [Parser.prepare_modules] *)

(** A [for] loop whose body may raise. *)
Fixpoint for_each {A S} (body : S → A → result S) (l : list A) (s : S)
    : result S :=
  match l with
  | [] => Ok s
  | x :: rest => let* s' := body s x in for_each body rest s'
  end.

Section Gate.

(** The Module objects; gating reads them and, by the contract on
    [prepare], leaves them as they are. *)
Variable ms : mstore.

(** Calling the [prepare] callback of a module with the module and
    [repository.Options(repo, options)]: its truth value, or an
    exception. *)
Variable call_prepare : callback → ref → Repository → dict ref → result bool.

(** ["%s:%s" % (repo.name, m.name)] *)
Definition module_qualified_name (repo : Repository) (m : ref) : string :=
  qualified (pct_s (repo_name repo)) (pct_s (mod_name (ms m))).

(** [m.functions["prepare"](m, repository.Options(repo, options))] *)
Definition run_prepare (options : dict ref) (repo : Repository) (m : ref)
    : result bool :=
  let* prepare :=
    match mod_functions (ms m) !! "prepare" with
    | Some f => Ok f
    | None => Raise (KeyError "prepare")
    end in
  call_prepare prepare m repo options.

(** Lines 207-211: the body of the inner loop. *)
Definition gate_module (options : dict ref) (repo : Repository)
    (env : gmap string ref) (m : ref) : result (gmap string ref) :=
  let* available := run_prepare options repo m in
  if available : bool then
    let name := module_qualified_name repo m in
    Ok (<[name := m]> env)
  else Ok env.

(** The same body on a pair (repository, module). *)
Definition gate (options : dict ref) (env : gmap string ref)
    (rm : Repository * ref) : result (gmap string ref) :=
  gate_module options rm.1 env rm.2.

(** Lines 205-213. The result is the parser with its Environment
    updated; the dict the code returns is [env_modules] of it. *)
Definition prepare_modules (self : Parser) (options : dict ref)
    : result Parser :=
  let* env :=
    for_each (λ env repo,
                for_each (gate_module options repo) (dict_values (repo_modules repo)) env)
             (dict_values (repositories self))
             (env_modules (environment self)) in
  Ok {| repositories := repositories self;
        modules := modules self;
        environment := {| env_modules := env |} |}.

End Gate.

(** ** Dependency closure: [Parser.resolve_dependencies] *)

(** Modelled from the spec: [Environment.get_module]
    (blob/environment.py is not among the sources): the entry under the
    qualified name, or a lookup error naming the module. *)
Definition get_module (env : Environment) (modulename : string) : result ref :=
  match env_modules env !! modulename with
  | Some m => Ok m
  | None => Raise (LookupError modulename)
  end.

Section Resolver.

(** The Module objects; resolution only reads [dependencies]. *)
Variable ms : mstore.

(** Lines 218-220 *)
Fixpoint lookup_requested (env : Environment)
    (requested_modules : list string) (selected_modules : list ref)
    : result (list ref) :=
  match requested_modules with
  | [] => Ok selected_modules
  | modulename :: rest =>
      let* m := get_module env modulename in
      lookup_requested env rest (selected_modules ++ [m])
  end.

(** Lines 226-231: the inner loop over [m.dependencies]. Membership in a
    Python list of Module objects is by identity. *)
Fixpoint add_dependencies (env : Environment) (selected_modules : list ref)
    (dependencies : list string) (additional : list ref)
    : result (list ref) :=
  match dependencies with
  | [] => Ok additional
  | dependency_name :: rest =>
      let* dependency := get_module env dependency_name in
      if bool_decide (dependency ∉ selected_modules)
         && bool_decide (dependency ∉ additional)
      then add_dependencies env selected_modules rest (additional ++ [dependency])
      else add_dependencies env selected_modules rest additional
  end.

(** Lines 225-231: the loop over [current]. *)
Fixpoint scan_current (env : Environment) (selected_modules : list ref)
    (current : list ref) (additional : list ref) : result (list ref) :=
  match current with
  | [] => Ok additional
  | m :: rest =>
      let* additional :=
        add_dependencies env selected_modules (mod_dependencies (ms m))
          additional in
      scan_current env selected_modules rest additional
  end.

(** Lines 223-237: [while 1], one unit of fuel per iteration; [None]
    when the fuel runs out before the loop breaks. *)
Fixpoint closure_loop (fuel : nat) (env : Environment)
    (selected_modules current : list ref) : option (result (list ref)) :=
  match fuel with
  | O => None
  | S fuel' =>
      match scan_current env selected_modules current [] with
      | Raise e => Some (Raise e)
      | Ok [] => Some (Ok selected_modules)
      | Ok additional =>
          closure_loop fuel' env (selected_modules ++ additional) additional
      end
  end.

(** Lines 215-239. [modules] is the parameter the code never reads. *)
Definition resolve_dependencies (fuel : nat) (self : Parser)
    (modules : gmap string ref) (requested_modules : list string)
    : option (result (list ref)) :=
  match lookup_requested (environment self) requested_modules [] with
  | Raise e => Some (Raise e)
  | Ok selected_modules =>
      closure_loop fuel (environment self) selected_modules selected_modules
  end.

End Resolver.

(** ** The project document: [Parser.parse_configuration] *)

(** What [parse_configuration] reads of the parsed and validated XML
    tree: for each [modules] child of the root the [text] of its [module]
    children ([None] for an empty element), and for the first [options]
    child of the root, if there is one, the attributes of its [option]
    children. *)
Record Document : Type := {
  doc_modules : list (list (option string));
  doc_options : option (list (list (string * string)))
}.

(** How lines 122-129 ([etree.parse], the schema, [assertValid],
    [getroot]) can fail: the three exception classes the code catches,
    and any other. *)
Inductive load_failure : Type :=
| OSError (msg : string)
| XMLSyntaxError (msg : string)
| DocumentInvalid (msg : string)
| OtherFailure (e : exn).

Section Configuration.

(** Lines 122-129: the document behind a file name, or the failure. *)
Variable load_document : string → load_failure + Document.

Definition modulename_msg (modulename : string) : string :=
  "Modulename '" +:+ modulename +:+ "' must contain exactly one ':' as " +:+
  "separator between repository and module name".

(** Lines 138-145: the body of the inner loop over the [module] nodes. *)
Definition require_module (requested_modules : list string)
    (text : option string) : result (list string) :=
  match text with
  | None => Raise (OtherError "'NoneType' object has no attribute 'split'")
  | Some modulename =>
      let m := split colon modulename in
      if decide (length m ≠ 2)
      then Raise (BlobException (modulename_msg modulename))
      else Ok (requested_modules ++ [modulename])
  end.

(** Lines 148-149: the body of the loop over the [option] nodes;
    [e.attrib['name']] and [e.attrib['value']] are subscripts, and the
    right-hand side of the assignment is evaluated first. *)
Definition read_option (config_options : dict string)
    (attrib : list (string * string)) : result (dict string) :=
  let* value := dict_getitem attrib (KStr "value") in
  let* name := dict_getitem attrib (KStr "name") in
  Ok (dict_set config_options name value).

(** Lines 135-151, once the document is there. *)
Definition read_document (doc : Document)
    : result (list string * dict string) :=
  let* requested_modules :=
    for_each (λ requested_modules modules_node,
                for_each require_module modules_node requested_modules)
             (doc_modules doc) [] in
  let* options_node :=
    match doc_options doc with
    | Some node => Ok node
    | None => Raise (OtherError "'NoneType' object has no attribute 'findall'")
    end in
  let* config_options := for_each read_option options_node [] in
  Ok (requested_modules, config_options).

(** Lines 110-151. [BlobException(e)] carries the text of [e]. *)
Definition parse_configuration (configfile : string)
    : result (list string * dict string) :=
  match load_document configfile with
  | inl (OSError msg) => Raise (BlobException msg)
  | inl (XMLSyntaxError msg) | inl (DocumentInvalid msg) =>
      Raise (BlobException
               ("Error while parsing xml-file '" +:+ configfile +:+ "': " +:+ msg))
  | inl (OtherFailure e) => Raise e
  | inr doc => read_document doc
  end.

End Configuration.

(** ** Repository loading: [Parser.parse_repository] *)

(** Modelled from the spec: a [repository.Repository] object while it is
    being loaded (blob/repository.py is not among the sources): as
    [Repository], but [modules] maps a loading-unit path to the Module
    object or to [None] while the module is not loaded yet. *)
Record RepositoryDef : Type := {
  def_name : option string;
  def_path : string;
  def_modules : dict (option ref);
  def_options : dict ref
}.

(** Modelled from the spec: the constructor [repository.Repository(path)]:
    no name, no modules, no options. *)
Definition Repository_new (path : string) : RepositoryDef :=
  {| def_name := None; def_path := path; def_modules := []; def_options := [] |}.

(** The same object seen as a [Repository]: its modules are the entries
    that hold a Module object. *)
Definition loaded_view (repo : RepositoryDef) : Repository :=
  {| repo_name := def_name repo;
     repo_path := def_path repo;
     repo_modules := omap (λ item, pair item.1 <$> item.2) (def_modules repo);
     repo_options := def_options repo |}.

(** [repo.modules[modulefile] = m] *)
Definition set_module (repo : RepositoryDef) (modulefile : string) (m : ref)
    : RepositoryDef :=
  {| def_name := def_name repo;
     def_path := def_path repo;
     def_modules := dict_set (def_modules repo) modulefile (Some m);
     def_options := def_options repo |}.

(** What loading changes: the parser, and the Module objects with the
    identity the next new object gets. *)
Record Loading : Type := {
  ld_parser : Parser;
  ld_objects : ref → Module_;
  ld_next : ref
}.

(** A new Module object holding [m], filed under [name] in
    [self.modules]. *)
Definition register_module (st : Loading) (name : string) (m : Module_)
    : Loading :=
  {| ld_parser :=
       {| repositories := repositories (ld_parser st);
          modules := dict_set (modules (ld_parser st)) name (ld_next st);
          environment := environment (ld_parser st) |};
     ld_objects := <[ld_next st := m]> (ld_objects st);
     ld_next := S (ld_next st) |}.

(** [self.repositories[name] = repo] *)
Definition register_repository (st : Loading) (name : string)
    (repo : Repository) : Loading :=
  {| ld_parser :=
       {| repositories := dict_set (repositories (ld_parser st)) name repo;
          modules := modules (ld_parser st);
          environment := environment (ld_parser st) |};
     ld_objects := ld_objects st;
     ld_next := ld_next st |}.

Section RepositoryLoader.

Variable exec_unit : string → result (gmap string callback).
Variable dirname : string → string.
Variable call_init : callback → Module_ → result Module_.

(** Calling the [prepare] callback of a repository definition on the
    Repository object: the object as the callback left it, or an
    exception. *)
Variable call_repo_prepare : callback → RepositoryDef → result RepositoryDef.

Definition no_repo_name_msg : string :=
  "The prepare(repo) function must set a repo name! " +:+
  "Please use the set_name() method.".

(** Lines 37-52: the body of the [try] statement; the name that line 50
    found set is returned with the object. *)
Definition repository_definition_body (repofile : string)
    : result (string * RepositoryDef) :=
  let repo := Repository_new (dirname repofile) in
  let* local := exec_unit repofile in
  let* prepare :=
    match local !! "prepare" with
    | Some f => Ok f
    | None => Raise (BlobException "No prepare() function found!")
    end in
  let* repo := call_repo_prepare prepare repo in
  match def_name repo with
  | None => Raise (BlobException no_repo_name_msg)
  | Some name => Ok (name, repo)
  end.

(** Lines 35-56 *)
Definition repository_definition (repofile : string)
    : result (string * RepositoryDef) :=
  match repository_definition_body repofile with
  | Ok r => Ok r
  | Raise e =>
      Raise (BlobException
               ("Invalid repository configuration file '" +:+ repofile +:+
                "': " +:+ str_of_exn e))
  end.

(** Lines 59-65: the loop over [repo.modules.items()]. An exception of
    [_parse_module] leaves the loop with the parser as the modules loaded
    so far have left it. *)
Fixpoint load_modules (name : string)
    (items : list (string * option ref)) (repo : RepositoryDef) (st : Loading)
    : result RepositoryDef * Loading :=
  match items with
  | [] => (Ok repo, st)
  | (modulefile, None) :: rest =>
      match _parse_module exec_unit dirname call_init (loaded_view repo)
              modulefile with
      | Raise e => (Raise e, st)
      | Ok m =>
          load_modules name rest
            (set_module repo modulefile (ld_next st))
            (register_module st (qualified name (pct_s (mod_name m))) m)
      end
  | (_, Some _) :: rest => load_modules name rest repo st
  end.

Definition ambiguous_msg (name : string) : string :=
  "Repository name '" +:+ name +:+ "' is ambiguous. Name must be unique.".

(** Lines 34-71 *)
Definition parse_repository (repofile : string) (st : Loading)
    : result Repository * Loading :=
  match repository_definition repofile with
  | Raise e => (Raise e, st)
  | Ok (name, repo) =>
      match load_modules name (def_modules repo) repo st with
      | (Raise e, st') => (Raise e, st')
      | (Ok repo, st') =>
          match dict_get (repositories (ld_parser st')) name with
          | Some _ => (Raise (BlobException (ambiguous_msg name)), st')
          | None =>
              (Ok (loaded_view repo),
               register_repository st' name (loaded_view repo))
          end
      end
  end.

End RepositoryLoader.

(** ** The gate, with the Environment written in place *)

(** A [for] loop whose body may raise, keeping what the state has become
    when it does. *)
Fixpoint for_each_in_place {A S} (body : S → A → result unit * S)
    (l : list A) (s : S) : result unit * S :=
  match l with
  | [] => (Ok (), s)
  | x :: rest =>
      match body s x with
      | (Ok _, s') => for_each_in_place body rest s'
      | (Raise e, s') => (Raise e, s')
      end
  end.

Section GateInPlace.

Variable ms : mstore.
Variable call_prepare : callback → ref → Repository → dict ref → result bool.

(** Lines 207-211 on [self.environment.modules]: a [prepare] that raises
    leaves the dict as it is. *)
Definition gate_module_in_place (options : dict ref) (repo : Repository)
    (env : gmap string ref) (m : ref) : result unit * gmap string ref :=
  match run_prepare ms call_prepare options repo m with
  | Raise e => (Raise e, env)
  | Ok available =>
      if available : bool then
        let name := module_qualified_name ms repo m in
        (Ok (), <[name := m]> env)
      else (Ok (), env)
  end.

(** Lines 205-213 as they act on the parser: the value returned or the
    exception raised, and the parser with the Environment as the loops
    have left it, also when a [prepare] raised. On a run that returns this
    is [prepare_modules]. *)
Definition prepare_modules_in_place (self : Parser) (options : dict ref)
    : result (gmap string ref) * Parser :=
  let '(outcome, env) :=
    for_each_in_place
      (λ env repo,
         for_each_in_place (gate_module_in_place options repo)
           (dict_values (repo_modules repo)) env)
      (dict_values (repositories self))
      (env_modules (environment self)) in
  (match outcome with Ok _ => Ok env | Raise e => Raise e end,
   {| repositories := repositories self;
      modules := modules self;
      environment := {| env_modules := env |} |}).

End GateInPlace.

(** ** Vocabulary of the statements *)

(** The Options the loaded repositories declare, in declaration order:
    the key of the repository in [self.repositories], the key of the
    Option in [repo.options], and the Option object. *)
Definition declarations (repos : dict Repository)
    : list (string * (string * ref)) :=
  repos ≫= λ '(repo_name, repo), pair repo_name <$> repo_options repo.

(** The Options among [decls] that are filed under [option_name]. *)
Definition named (option_name : string)
    (decls : list (string * (string * ref))) : list ref :=
  (λ d, d.2.2) <$> filter (λ d, d.2.1 = option_name) decls.

(** The Option objects declared under the bare name [option_name]. *)
Definition declared_as (repos : dict Repository) (option_name : string)
    : list ref :=
  named option_name (declarations repos).


(** The qualified names ['repository:option'] of the declared Options. *)
Definition qualified_option_names (repos : dict Repository) : list string :=
  (λ d, qualified d.1 d.2.1) <$> declarations repos.

(** No Option object is declared under two different bare names. *)
Definition one_name_per_option (repos : dict Repository) : Prop :=
  ∀ d1 d2, d1 ∈ declarations repos → d2 ∈ declarations repos →
    d1.2.2 = d2.2.2 → d1.2.1 = d2.2.1.

(** [sep.join(parts)], the inverse of [split]. *)
Fixpoint join (sep : ascii) (parts : list string) : string :=
  match parts with
  | [] => ""
  | [w] => w
  | w :: ws => w +:+ String sep (join sep ws)
  end.

(** One step of index building over the flattened declarations. *)
Definition index_step (idx : dict ref * dict (list ref))
    (d : string * (string * ref)) : dict ref * dict (list ref) :=
  index_option d.1 idx d.2.

(** Appending the Options [new] to what the bare-name index holds. *)
Definition extend_list (o : option (list ref)) (new : list ref)
    : option (list ref) :=
  match o, new with
  | None, [] => None
  | _, _ => Some (default [] o ++ new)
  end.

(** The Module object as lines 91-95 leave it when the unit has the three
    entry points. *)
Definition loaded_functions (m : Module_) (init prepare build : callback)
    : Module_ :=
  set_function (set_function (set_function m "init" init) "prepare" prepare)
    "build" build.

(** The modules in the order the gate visits them: the repositories in
    the order of [self.repositories], the modules of each in the order of
    [repo.modules]. *)
Definition gating_order (self : Parser) : list (Repository * ref) :=
  dict_values (repositories self) ≫=
    λ repo, pair repo <$> dict_values (repo_modules repo).

(** The Module object [m] has an entry in the Environment. *)
Definition registered (env : Environment) (m : ref) : Prop :=
  ∃ name, env_modules env !! name = Some m.

(** Every dependency name of every registered module resolves in the
    Environment. *)
Definition dependencies_resolve (ms : mstore) (env : Environment) : Prop :=
  ∀ m dependency_name,
    registered env m → dependency_name ∈ mod_dependencies (ms m) →
    is_Some (env_modules env !! dependency_name).

(** What the loops of [resolve_dependencies] keep true of [additional]:
    no module twice, only registered modules, none that is selected
    already. *)
Definition fresh_additions (env : Environment)
    (selected_modules additional : list ref) : Prop :=
  NoDup additional ∧
  ∀ m, m ∈ additional → registered env m ∧ m ∉ selected_modules.

(** ** A small project used in the examples

    Repository ["core"] declares the options ["arch"] (no default) and
    ["speed"] (default ["fast"]); repository ["ext"] declares its own
    ["arch"] (no default). *)
Module Example.

Definition options : ref → Option := λ o,
  match o with
  | 0 => {| opt_name := "arch"; opt_value := None |}
  | 1 => {| opt_name := "speed"; opt_value := Some "fast" |}
  | _ => {| opt_name := "arch"; opt_value := None |}
  end.

Definition core : Repository :=
  {| repo_name := Some "core"; repo_path := "core";
     repo_modules :=
       [("core/uart.lb", 0); ("core/timer.lb", 1); ("core/uart2.lb", 3)];
     repo_options := [("arch", 0); ("speed", 1)] |}.

Definition ext : Repository :=
  {| repo_name := Some "ext"; repo_path := "ext";
     repo_modules := [("ext/timer.lb", 2)];
     repo_options := [("arch", 2)] |}.

(** The Module objects: 0 and 3 both call themselves ["uart"] in
    ["core"], 1 is ["timer"] of ["core"] and depends on ["core:uart"],
    2 is ["timer"] of ["ext"]. The [init], [prepare] and [build]
    callbacks of module [m] are [3m], [3m+1] and [3m+2]. *)
Definition module_objects : ref → Module_ := λ m,
  {| mod_repository := Some (if decide (m = 2) then "ext" else "core");
     mod_filename :=
       match m with
       | 0 => "core/uart.lb" | 1 => "core/timer.lb"
       | 2 => "ext/timer.lb" | _ => "core/uart2.lb"
       end;
     mod_path := if decide (m = 2) then "ext" else "core";
     mod_name :=
       Some (match m with 1 | 2 => "timer" | _ => "uart" end);
     mod_functions :=
       <["init" := 3 * m]> (<["prepare" := 3 * m + 1]>
         (<["build" := 3 * m + 2]> ∅));
     mod_dependencies :=
       match m with 1 => ["core:uart"] | _ => [] end |}.

(** [prepare] of the two uart modules returns true, that of the two
    timers false. *)
Definition call_prepare (f : callback) (m : ref) (repo : Repository)
    (options : list (string * ref)) : result bool :=
  Ok (bool_decide (f = 1 ∨ f = 10)).

Definition parser : Parser :=
  {| repositories := [("core", core); ("ext", ext)];
     modules := [("core:uart", 0); ("core:timer", 1); ("ext:timer", 2)];
     environment := {| env_modules := ∅ |} |}.

(** Definition units: ["core/uart.lb"] has the three entry points and
    its [init] (callback 0) sets the name; ["core/noname.lb"] has them
    too but its [init] sets no name; ["core/broken.lb"] lacks
    [build]. *)
Definition exec_unit (file : string) : result (gmap string callback) :=
  if decide (file = "core/uart.lb")
  then Ok (<["init" := 0]> (<["prepare" := 1]> (<["build" := 2]> ∅)))
  else if decide (file = "core/noname.lb")
  then Ok (<["init" := 12]> (<["prepare" := 13]> (<["build" := 14]> ∅)))
  else if decide (file = "core/broken.lb")
  then Ok (<["init" := 15]> (<["prepare" := 16]> ∅))
  else Raise (OtherError "No such file or directory").

Definition dirname (file : string) : string := "core".

Definition init_uart (m : Module_) : Module_ :=
  {| mod_repository := mod_repository m;
     mod_filename := mod_filename m;
     mod_path := mod_path m;
     mod_name := Some "uart";
     mod_functions := mod_functions m;
     mod_dependencies := mod_dependencies m |}.

Definition call_init (f : callback) (m : Module_) : result Module_ :=
  match f with
  | 0 => Ok (init_uart m)
  | _ => Ok m
  end.

(** Three gated-in modules A, B, C (objects 0, 1, 2) of a repository
    ["r"], with the chain A -> B -> C, and the same Environment with the
    cycle A -> B -> A. *)
Definition module_with (dependencies : list string) : Module_ :=
  {| mod_repository := Some "r"; mod_filename := "r/module.lb";
     mod_path := "r"; mod_name := Some "module"; mod_functions := ∅;
     mod_dependencies := dependencies |}.

Definition chain : ref → Module_ := λ m,
  match m with
  | 0 => module_with ["r:B"]
  | 1 => module_with ["r:C"]
  | _ => module_with []
  end.

Definition cycle : ref → Module_ := λ m,
  match m with
  | 0 => module_with ["r:B"]
  | 1 => module_with ["r:A"]
  | _ => module_with []
  end.

Definition gated : Parser :=
  {| repositories := []; modules := [];
     environment :=
       {| env_modules := <["r:A" := 0]> (<["r:B" := 1]> (<["r:C" := 2]> ∅)) |} |}.

End Example.

(** ** Vocabulary of the further properties *)

(** The modules that the modules [roots] need: the roots themselves and,
    step by step, the modules their dependency names resolve to in the
    Environment. *)
Inductive reachable (ms : ref → Module_) (env : Environment)
    (roots : list ref) : ref → Prop :=
| reachable_root m :
    m ∈ roots → reachable ms env roots m
| reachable_dependency m dependency_name dependency :
    reachable ms env roots m →
    dependency_name ∈ mod_dependencies (ms m) →
    env_modules env !! dependency_name = Some dependency →
    reachable ms env roots dependency.

(** The names in [requested_modules] resolve, in order, to [requested]. *)
Definition resolves_to (env : Environment) (requested_modules : list string)
    (requested : list ref) : Prop :=
  Forall2 (λ name m, env_modules env !! name = Some m)
    requested_modules requested.

(** What has become of an entry [item] of [repo.modules] when the loop of
    [parse_repository] is through: in [item'] it holds a Module object,
    the one that was there already or a new one that holds what
    [_parse_module] returned for the file. *)
Definition loaded_entry
    (exec_unit : string → result (gmap string callback))
    (dirname : string → string)
    (call_init : callback → Module_ → result Module_)
    (name : string) (st st' : Loading)
    (item item' : string * option ref) : Prop :=
  item'.1 = item.1 ∧
  ∃ m, item'.2 = Some m ∧
    (item.2 = Some m ∨
     (item.2 = None ∧ ld_next st ≤ m < ld_next st' ∧
      ∃ view, repo_name view = Some name ∧
        _parse_module exec_unit dirname call_init view item.1
          = Ok (ld_objects st' m))).

(** ** Further examples *)
Module Sample.

(** A -> B, and B names a module ["r:D"] that did not gate in. *)
Definition dangling : ref → Module_ := λ m,
  match m with
  | 0 => Example.module_with ["r:B"]
  | 1 => Example.module_with ["r:D"]
  | _ => Example.module_with []
  end.

(** A [prepare] that raises for the module whose callback is 4 (the
    timer of ["core"] in [Example.module_objects]). *)
Definition failing_prepare (f : callback) (m : ref) (repo : Repository)
    (options : list (string * ref)) : result bool :=
  if decide (f = 4) then Raise (OtherError "no such option") else Ok true.

(** An [init] that raises. *)
Definition failing_init (f : callback) (m : Module_) : result Module_ :=
  Raise (OtherError "name 'modul' is not defined").

(** A project document that requests three modules and overrides
    ["core:arch"] twice, and one whose second module name has no [':']. *)
Definition project : Document :=
  {| doc_modules := [[Some "core:timer"; Some "core:uart"]; [Some "ext:timer"]];
     doc_options :=
       Some [[("name", "core:arch"); ("value", "avr")];
             [("name", ":speed"); ("value", "slow")];
             [("name", "core:arch"); ("value", "arm")]] |}.

Definition misnamed : Document :=
  {| doc_modules := [[Some "core:timer"; Some "uart"]; [Some "ext:timer:x"]];
     doc_options := Some [] |}.

Definition load_document (file : string) : load_failure + Document :=
  if decide (file = "project.xml") then inr project
  else if decide (file = "misnamed.xml") then inr misnamed
  else inl (OSError "No such file or directory").

(** Repository definition units: ["core/repo.lb"] names itself
    ["core"], declares the option ["arch"] and lists the module
    ["core/uart.lb"]; ["twin/repo.lb"] does the same; ["fork/repo.lb"]
    lists a module that cannot be loaded; ["anon/repo.lb"] sets no name;
    ["void/repo.lb"] has no [prepare].
    Module units are those of [Example.exec_unit]. *)
Definition exec_unit (file : string) : result (gmap string callback) :=
  if decide (file = "core/repo.lb") then Ok (<["prepare" := 20]> ∅)
  else if decide (file = "fork/repo.lb") then Ok (<["prepare" := 21]> ∅)
  else if decide (file = "anon/repo.lb") then Ok (<["prepare" := 22]> ∅)
  else if decide (file = "twin/repo.lb") then Ok (<["prepare" := 20]> ∅)
  else if decide (file = "void/repo.lb") then Ok ∅
  else Example.exec_unit file.

Definition call_repo_prepare (f : callback) (repo : RepositoryDef)
    : result RepositoryDef :=
  match f with
  | 20 =>
      Ok {| def_name := Some "core"; def_path := def_path repo;
            def_modules := [("core/uart.lb", None)];
            def_options := [("arch", 0)] |}
  | 21 =>
      Ok {| def_name := Some "fork"; def_path := def_path repo;
            def_modules := [("core/broken.lb", None)];
            def_options := [] |}
  | _ => Ok repo
  end.

(** A parser that has loaded nothing yet. *)
Definition fresh : Loading :=
  {| ld_parser :=
       {| repositories := []; modules := [];
          environment := {| env_modules := ∅ |} |};
     ld_objects := λ _, Example.module_with [];
     ld_next := 0 |}.

(** [parse_repository] with these units and callbacks. *)
Definition load (file : string) (st : Loading) : result Repository * Loading :=
  parse_repository exec_unit Example.dirname Example.call_init
    call_repo_prepare file st.



End Sample.

(** * Properties *)

(** ** Insertion-ordered dicts *)

Section dict_facts.
Context {V : Type}.
Implicit Types (d : dict V) (k : string) (v : V).

Lemma dict_get_set d k v k' :
  dict_get (dict_set d k v) k' =
    if decide (k' = k) then Some v else dict_get d k'.
Proof.
  induction d as [|[k0 v0] d IH]; simpl.
  - repeat case_decide; congruence.
  - repeat (case_decide; simpl); subst; try congruence.
Qed.

Lemma dict_get_None d k : dict_get d k = None ↔ k ∉ dict_keys d.
Proof.
  unfold dict_keys. induction d as [|[k0 v0] d IH]; simpl.
  - split; [intros _; apply not_elem_of_nil | done].
  - rewrite not_elem_of_cons. case_decide; subst.
    + split; [done | intros [? _]; done].
    + rewrite IH. tauto.
Qed.

Lemma dict_set_fresh d k v : k ∉ dict_keys d → dict_set d k v = d ++ [(k, v)].
Proof.
  unfold dict_keys. induction d as [|[k0 v0] d IH]; simpl; [done|].
  rewrite not_elem_of_cons. intros [Hne Hnin].
  case_decide; [done|]. by rewrite IH.
Qed.


Lemma dict_keys_set d k v x :
  x ∈ dict_keys (dict_set d k v) ↔ x = k ∨ x ∈ dict_keys d.
Proof.
  unfold dict_keys. induction d as [|[k0 v0] d IH]; simpl.
  - rewrite list_elem_of_singleton, elem_of_nil. tauto.
  - case_decide; simpl; rewrite !elem_of_cons; subst; intuition.
Qed.

End dict_facts.

(** ** The two indices *)

Lemma build_indices_declarations repos :
  build_indices repos = foldl index_step ([], []) (declarations repos).
Proof.
  unfold build_indices, declarations. generalize (@nil (string * ref), @nil (string * list ref)).
  induction repos as [|[rn repo] repos IH]; intros idx; [done|].
  rewrite bind_cons, foldl_app. simpl. rewrite IH. f_equal.
  generalize idx. induction (repo_options repo) as [|item items IHi]; intros idx'; [done|].
  simpl. apply IHi.
Qed.

Lemma by_full_name_fold decls idx :
  (foldl index_step idx decls).1 =
    foldl (λ d x, dict_set d (qualified x.1 x.2.1) x.2.2) idx.1 decls.
Proof.
  revert idx. induction decls as [|[rn [cn o]] decls IH]; intros [bf bn]; [done|].
  simpl. rewrite IH. done.
Qed.


Lemma by_full_name_fresh (decls : list (string * (string * ref)))
    (d : dict ref) :
  NoDup (dict_keys d ++ ((λ d, qualified d.1 d.2.1) <$> decls)) →
  foldl (λ d x, dict_set d (qualified x.1 x.2.1) x.2.2) d decls =
    d ++ ((λ x, (qualified x.1 x.2.1, x.2.2)) <$> decls).
Proof.
  revert d. induction decls as [|[rn [cn o]] decls IH]; intros d Hnd; simpl.
  - by rewrite app_nil_r.
  - simpl in Hnd. rewrite dict_set_fresh.
    + rewrite IH. * by rewrite <- app_assoc.
      * unfold dict_keys in *. rewrite fmap_app. simpl. by rewrite <- app_assoc.
    + apply list.NoDup_app in Hnd as (_ & Hd & _). intros Hin. apply (Hd _ Hin). left.
Qed.

(** The bare-name index gives, under each name, the Options declared under
    it, and has no key for a name nobody declares. *)
Lemma by_option_name_fold decls idx option_name :
  dict_get (foldl index_step idx decls).2 option_name =
    extend_list (dict_get idx.2 option_name) (named option_name decls).
Proof.
  revert idx. induction decls as [|[rn [cn o]] decls IH]; intros [bf bn].
  - simpl. unfold named. simpl. destruct (dict_get bn option_name); simpl; [|done].
    by rewrite app_nil_r.
  - simpl. rewrite IH. simpl. rewrite dict_get_set. unfold named, dict_get_default.
    rewrite filter_cons. simpl. case_decide as Hcn; subst.
    + rewrite decide_True by done. simpl.
      destruct (dict_get bn cn); simpl; [|done]. by rewrite <- app_assoc.
    + rewrite decide_False by done. done.
Qed.

Lemma by_option_name_lookup repos option_name :
  dict_get (build_indices repos).2 option_name =
    match declared_as repos option_name with
    | [] => None
    | options => Some options
    end.
Proof.
  rewrite build_indices_declarations, by_option_name_fold. simpl.
  unfold declared_as, named. by destruct (_ <$> _).
Qed.

Lemma elem_of_declarations repos rn cn (o : ref) :
  (rn, (cn, o)) ∈ declarations repos ↔
    ∃ repo, (rn, repo) ∈ repos ∧ (cn, o) ∈ repo_options repo.
Proof.
  unfold declarations. rewrite list_elem_of_bind. split.
  - intros [[rn' repo] [Hin Hrepo]]. apply list_elem_of_fmap in Hin as [[cn' o'] [Heq Hin]].
    simplify_eq. eauto.
  - intros [repo [Hrepo Hin]]. exists (rn, repo). split; [|done].
    apply list_elem_of_fmap. by exists (cn, o).
Qed.

Lemma elem_of_declared_as repos option_name (o : ref) :
  o ∈ declared_as repos option_name ↔
    ∃ rn repo, (rn, repo) ∈ repos ∧ (option_name, o) ∈ repo_options repo.
Proof.
  unfold declared_as, named. rewrite list_elem_of_fmap. split.
  - intros [[rn [cn o']] [-> [Hcn Hin]%list_elem_of_filter]]. simpl in *. subst.
    apply elem_of_declarations in Hin as [repo ?]. eauto.
  - intros (rn & repo & Hrepo & Hin). exists (rn, (option_name, o)). split; [done|].
    apply list_elem_of_filter. split; [done|]. apply elem_of_declarations. eauto.
Qed.

(** ** The override loop *)

Lemma set_value_lookup value (s : ostore) (o o' : ref) :
  set_value value s o o' =
    if decide (o = o')
    then {| opt_name := opt_name (s o); opt_value := Some value |}
    else s o'.
Proof.
  unfold set_value. case_decide; subst.
  - by rewrite fn_lookup_insert.
  - by rewrite fn_lookup_insert_ne.
Qed.

Lemma set_values_lookup value (options : list ref) (s : ostore) (o : ref) :
  foldl (set_value value) s options o =
    if decide (o ∈ options)
    then {| opt_name := opt_name (s o); opt_value := Some value |}
    else s o.
Proof.
  revert s. induction options as [|o1 options IH]; intros s; simpl.
  - done.
  - rewrite IH, !set_value_lookup.
    destruct (decide (o1 = o)) as [->|Hne];
      destruct (decide (o ∈ options)) as [Hin|Hnin];
      destruct (decide (o ∈ _ :: options)) as [Hc|Hc]; simpl; try done.
    all: exfalso;
      first [ apply Hc; by constructor
            | apply elem_of_cons in Hc as [?|?]; congruence ].
Qed.

Lemma split_nonempty sep s : split sep s ≠ [].
Proof. destruct s as [|c s]; simpl; [done|]. case_decide; [done|]. by destruct (split sep s). Qed.

Lemma join_split sep s : join sep (split sep s) = s.
Proof.
  induction s as [|c s IH]; simpl; [done|].
  pose proof (split_nonempty sep s) as Hne.
  case_decide; subst.
  - destruct (split sep s) as [|w ws]; [done|]. simpl in *. by rewrite IH.
  - destruct (split sep s) as [|w ws]; [done|]. rewrite <- IH.
    by destruct ws.
Qed.

Lemma split_inj sep s1 s2 : split sep s1 = split sep s2 → s1 = s2.
Proof. intros H. by rewrite <- (join_split sep s1), H, join_split. Qed.

Lemma apply_overrides_app bf bn pre rest s :
  apply_overrides bf bn (pre ++ rest) s =
    match apply_overrides bf bn pre s with
    | (Ok _, s1) => apply_overrides bf bn rest s1
    | (Raise e, s1) => (Raise e, s1)
    end.
Proof.
  revert s. induction pre as [|entry pre IH]; intros s; simpl; [done|].
  destruct (apply_override bf bn entry s) as [[[]|e] s1]; [apply IH | done].
Qed.

Lemma apply_override_qualified bf bn config_name value s repo_name option_name :
  split colon config_name = [repo_name; option_name] → repo_name ≠ "" →
  apply_override bf bn (config_name, value) s =
    (Raise (TypeError "unhashable type: 'list'"), s).
Proof.
  intros Hsplit Hne. unfold apply_override; cbv zeta; rewrite Hsplit.
  by rewrite decide_False.
Qed.

Lemma apply_override_wildcard repos config_name value s option_name :
  split colon config_name = [""; option_name] →
  apply_override (build_indices repos).1 (build_indices repos).2
      (config_name, value) s =
    match declared_as repos option_name with
    | [] => (Raise (KeyError option_name), s)
    | options => (Ok (), foldl (set_value value) s options)
    end.
Proof.
  intros Hsplit. unfold apply_override; cbv zeta; rewrite Hsplit. simpl.
  rewrite by_option_name_lookup. by destruct (declared_as repos option_name).
Qed.

(** What a step of the override loop that does not raise has done to an
    Option: nothing, or the wildcard assignment. *)
Lemma apply_override_Ok repos entry s s1 (o : ref) :
  apply_override (build_indices repos).1 (build_indices repos).2 entry s
    = (Ok (), s1) →
  s1 o = s o ∨
  ∃ option_name, split colon entry.1 = [""; option_name] ∧
    o ∈ declared_as repos option_name ∧
    s1 o = {| opt_name := opt_name (s o); opt_value := Some entry.2 |}.
Proof.
  destruct entry as [config_name value]. cbn [fst snd].
  destruct (split colon config_name) as [|p1 [|p2 [|p3 [|p4 ps]]]] eqn:Hsplit.
  1, 2, 5: unfold apply_override; cbv zeta; rewrite Hsplit; intros [=].
  - destruct (decide (p1 = "")) as [->|Hne].
    + rewrite (apply_override_wildcard _ _ _ _ p2 Hsplit).
      destruct (declared_as repos p2) as [|o1 options] eqn:Hdecl; [intros [=]|].
      intros Heq.
      assert (s1 = foldl (set_value value) s (o1 :: options)) as -> by congruence.
      rewrite set_values_lookup. case_decide; [|by left].
      right. exists p2. by rewrite Hdecl.
    + rewrite (apply_override_qualified _ _ _ _ _ p1 p2 Hsplit Hne). intros [=].
  - unfold apply_override; cbv zeta; rewrite Hsplit. intros [= <-]. by left.
Qed.

(** ** The merge as a whole *)

Lemma merge_repository_options_unfold self config s :
  merge_repository_options self config s =
    let idx := build_indices (repositories self) in
    match apply_overrides idx.1 idx.2 config s with
    | (Raise e, s') => (Raise e, s')
    | (Ok _, s') =>
        match check_values s' (dict_values idx.1) with
        | Raise e => (Raise e, s')
        | Ok _ => (Ok idx.1, s')
        end
    end.
Proof.
  unfold merge_repository_options.
  by destruct (build_indices (repositories self)) as [bf bn].
Qed.





(** C1 (divergence). A qualified override ['<repository>:<option>'] with
    a non-empty repository is meant to set that one Option's value and to
    raise nothing. In the qualified branch the code subscripts the index
    with the list that [split] returned, so every qualified entry the loop
    reaches raises [TypeError]: no Option is assigned by it, and the merge
    ends there. *)
Theorem qualified_override_raises_TypeError
    self pre config_name value post s s1 repo_name option_name :
  split colon config_name = [repo_name; option_name] →
  repo_name ≠ "" →
  apply_overrides (build_indices (repositories self)).1
    (build_indices (repositories self)).2 pre s = (Ok (), s1) →
  merge_repository_options self (pre ++ (config_name, value) :: post) s =
    (Raise (TypeError "unhashable type: 'list'"), s1).
Proof.
  intros Hsplit Hne Hpre.
  rewrite merge_repository_options_unfold. cbv zeta.
  rewrite apply_overrides_app, Hpre. cbn [apply_overrides].
  by rewrite (apply_override_qualified _ _ _ _ _ _ _ Hsplit Hne).
Qed.

Lemma qualified_override_raises_TypeError_witness :
  split colon "core:arch" = ["core"; "arch"] ∧
  merge_repository_options Example.parser [("core:arch", "avr")] Example.options =
    (Raise (TypeError "unhashable type: 'list'"), Example.options).
Proof.
  split; [reflexivity|].
  apply (qualified_override_raises_TypeError Example.parser [] "core:arch" "avr" []
           Example.options Example.options "core" "arch");
    [reflexivity | discriminate | reflexivity].
Defined.

(** C8 (counterexample). A key with no [':'] is not of two-part form, yet
    the merge rejects it with a configuration error instead of accepting
    it. *)
Lemma key_without_colon_rejected :
  length (split colon "arch") ≠ 2 ∧
  merge_repository_options Example.parser [("arch", "avr")] Example.options =
    (Raise (BlobException "Invalid option 'arch'"), Example.options).
Proof. split; [by vm_compute | reflexivity]. Qed.

(** C8 (amended). Among the override entries whose key is not of two-part
    form, exactly those with a three-part key are accepted, and they have
    no effect on any Option; every other shape is rejected with
    ["Invalid option '<key>'"], the Options being left as they were. A set
    of overrides that has only three-part keys leaves every Option
    untouched. *)
Theorem three_part_key_ignored_other_shapes_rejected self :
  let idx := build_indices (repositories self) in
  (∀ config_name value s,
     length (split colon config_name) ≠ 2 →
     apply_override idx.1 idx.2 (config_name, value) s =
       if decide (length (split colon config_name) = 3) then (Ok (), s)
       else (Raise (BlobException ("Invalid option '" +:+ config_name +:+ "'")), s))
  ∧
  (∀ config s,
     (∀ entry, entry ∈ config → length (split colon entry.1) = 3) →
     apply_overrides idx.1 idx.2 config s = (Ok (), s)).
Proof.
  intros idx.
  assert (∀ config_name value s,
     length (split colon config_name) ≠ 2 →
     apply_override idx.1 idx.2 (config_name, value) s =
       if decide (length (split colon config_name) = 3) then (Ok (), s)
       else (Raise (BlobException ("Invalid option '" +:+ config_name +:+ "'")), s))
    as Hstep.
  { intros config_name value s Hlen. unfold apply_override. cbv zeta.
    destruct (split colon config_name) as [|p1 [|p2 [|p3 [|p4 ps]]]]; simpl in *;
      try done. }
  split; [exact Hstep|].
  intros config s. induction config as [|[config_name value] config IH]; intros Hall.
  - done.
  - cbn [apply_overrides].
    assert (length (split colon config_name) = 3) as Hlen
      by (apply (Hall (config_name, value)); left).
    rewrite Hstep by lia. rewrite decide_True by done.
    apply IH. intros entry Hin. apply Hall. by right.
Qed.

Lemma three_part_key_ignored_other_shapes_rejected_witness :
  apply_override (build_indices (repositories Example.parser)).1
      (build_indices (repositories Example.parser)).2
      ("core:uart:baud", "9600") Example.options = (Ok (), Example.options)
  ∧ apply_overrides (build_indices (repositories Example.parser)).1
      (build_indices (repositories Example.parser)).2
      [("core:uart:baud", "9600"); ("ext:timer:tick", "1")] Example.options
    = (Ok (), Example.options).
Proof.
  split.
  - apply (proj1 (three_part_key_ignored_other_shapes_rejected Example.parser)
             "core:uart:baud" "9600" Example.options).
    vm_compute. discriminate.
  - apply (proj2 (three_part_key_ignored_other_shapes_rejected Example.parser)).
    intros entry Hin. apply list_elem_of_In in Hin. simpl in Hin.
    destruct Hin as [<-|[<-|[]]]; reflexivity.
Defined.

(** An Option that no later wildcard entry names keeps its value through
    the rest of the override loop. *)
Lemma apply_overrides_untouched repos config s s' (o : ref) :
  apply_overrides (build_indices repos).1 (build_indices repos).2 config s
    = (Ok (), s') →
  (∀ entry option_name, entry ∈ config →
     split colon entry.1 = [""; option_name] →
     o ∉ declared_as repos option_name) →
  s' o = s o.
Proof.
  revert s. induction config as [|entry config IH]; intros s; cbn [apply_overrides].
  - by intros [= <-].
  - destruct (apply_override _ _ entry s) as [[[]|e] s1] eqn:Hstep; [|intros [=]].
    intros Hrest Hfree. rewrite (IH s1 Hrest).
    + destruct (apply_override_Ok _ _ _ _ o Hstep) as [|(on & Hsplit & Hin & _)]; [done|].
      exfalso. apply (Hfree entry on); [left | done | done].
    + intros entry' on Hin. apply Hfree. by right.
Qed.

(** C5. A wildcard override [':<option>'] sets its value on every Option
    declared under that bare name, in every loaded repository: this is
    what the loop body does for the entry, raising [KeyError] exactly when
    no repository declares the name; and, the keys of [config_options]
    being distinct as in any dict, this is the value these Options hold
    when the override loop has run, provided no Option object is declared
    under two bare names. *)
Theorem wildcard_override_sets_every_option
    self config_name value option_name :
  let repos := repositories self in
  let idx := build_indices repos in
  split colon config_name = [""; option_name] →
  (∀ s, let r := apply_override idx.1 idx.2 (config_name, value) s in
     (∀ repo_name repo o,
        (repo_name, repo) ∈ repos → (option_name, o) ∈ repo_options repo →
        r.1 = Ok () ∧ opt_value (r.2 o) = Some value) ∧
     (declared_as repos option_name = [] →
        r = (Raise (KeyError option_name), s)))
  ∧
  (∀ config s s',
     NoDup (dict_keys config) → one_name_per_option repos →
     (config_name, value) ∈ config →
     apply_overrides idx.1 idx.2 config s = (Ok (), s') →
     (merge_repository_options self config s).2 = s' ∧
     ∀ repo_name repo o,
       (repo_name, repo) ∈ repos → (option_name, o) ∈ repo_options repo →
       opt_value (s' o) = Some value).
Proof.
  intros repos idx Hsplit. split.
  - intros s r. subst r idx.
    rewrite (apply_override_wildcard _ _ _ _ _ Hsplit). split.
    + intros rn repo o Hrepo Ho.
      assert (o ∈ declared_as repos option_name) as Hin
        by (apply elem_of_declared_as; eauto).
      destruct (declared_as repos option_name) as [|o1 options] eqn:Hdecl.
      { by apply elem_of_nil in Hin. }
      split; [done|]. cbn [snd]. rewrite set_values_lookup.
      by rewrite decide_True.
    + by intros ->.
  - intros config s s' Hnd Hone Hentry Hrun. split.
    { rewrite merge_repository_options_unfold. cbv zeta. fold repos idx.
      rewrite Hrun. by destruct (check_values _ _). }
    intros rn repo o Hrepo Ho.
    assert (o ∈ declared_as repos option_name) as Hin
      by (apply elem_of_declared_as; eauto).
    revert s Hnd Hentry Hrun.
    induction config as [|entry config IH]; intros s Hnd Hentry; cbn [apply_overrides].
    { by apply elem_of_nil in Hentry. }
    unfold dict_keys in Hnd. rewrite fmap_cons in Hnd. apply list.NoDup_cons in Hnd as [Hfresh Hnd].
    destruct (apply_override _ _ entry s) as [[[]|e] s1] eqn:Hstep; [|intros [=]].
    intros Hrest. apply elem_of_cons in Hentry as [<-|Hentry]; [|by apply (IH s1)].
    rewrite (apply_overrides_untouched _ _ _ _ o Hrest).
    + subst idx. rewrite (apply_override_wildcard _ _ _ _ _ Hsplit) in Hstep.
      destruct (declared_as repos option_name) as [|o1 options] eqn:Hdecl; [done|].
      assert (s1 = foldl (set_value value) s (o1 :: options)) as -> by congruence.
      rewrite set_values_lookup. by rewrite decide_True.
    + intros [k' v'] on' Hin' Hsplit' Hin2. cbn [fst] in Hsplit'.
      apply Hfresh. apply list_elem_of_fmap. exists (k', v'). split; [|done].
      cbn [fst]. apply (split_inj colon). rewrite Hsplit, Hsplit'. do 2 f_equal.
      unfold declared_as, named in Hin, Hin2.
      apply list_elem_of_fmap in Hin as (d1 & Ho1 & [Hn1 Hd1]%list_elem_of_filter).
      apply list_elem_of_fmap in Hin2 as (d2 & Ho2 & [Hn2 Hd2]%list_elem_of_filter).
      rewrite <- Hn1, <- Hn2. apply Hone; [done | done | congruence].
Qed.

Lemma wildcard_override_sets_every_option_witness :
  let s' := (merge_repository_options Example.parser [(":arch", "avr")]
               Example.options).2 in
  opt_value (s' 0) = Some "avr" ∧ opt_value (s' 2) = Some "avr".
Proof.
  intros s'.
  destruct (wildcard_override_sets_every_option Example.parser ":arch" "avr" "arch"
              eq_refl) as [_ Hrun].
  destruct (Hrun [(":arch", "avr")] Example.options s') as [_ Hall].
  - apply NoDup_singleton.
  - intros d1 d2 H1 H2. apply list_elem_of_In in H1, H2. simpl in H1, H2.
    intuition (subst; simpl in *; congruence).
  - left.
  - reflexivity.
  - split.
    + apply (Hall "core" Example.core); [left | left].
    + apply (Hall "ext" Example.ext); [right; left | left].
Defined.







(** ** Module loading *)

Lemma get_functions_all local m init prepare build :
  local !! "init" = Some init →
  local !! "prepare" = Some prepare →
  local !! "build" = Some build →
  get_functions local required_functions m =
    Ok (loaded_functions m init prepare build).
Proof. intros Hi Hp Hb. simpl. by rewrite Hi, Hp, Hb. Qed.

Lemma get_functions_missing local m :
  local !! "init" = None ∨ local !! "prepare" = None ∨ local !! "build" = None →
  ∃ functionname, functionname ∈ required_functions ∧
    local !! functionname = None ∧
    get_functions local required_functions m =
      Raise (BlobException ("No function '" +:+ functionname +:+ "' found!")).
Proof.
  intros Hmiss. simpl.
  destruct (local !! "init") as [fi|] eqn:Hi.
  2: { exists "init". split_and!; [left | done | done]. }
  destruct (local !! "prepare") as [fp|] eqn:Hp.
  2: { exists "prepare". split_and!; [right; left | done | done]. }
  destruct (local !! "build") as [fb|] eqn:Hb.
  2: { exists "build". split_and!; [do 2 right; left | done | done]. }
  by destruct Hmiss as [?|[?|?]].
Qed.

Lemma loaded_functions_lookup m init prepare build :
  mod_functions (loaded_functions m init prepare build) !! "init" = Some init ∧
  mod_functions (loaded_functions m init prepare build) !! "prepare" = Some prepare ∧
  mod_functions (loaded_functions m init prepare build) !! "build" = Some build.
Proof. unfold loaded_functions, set_function. simpl. by simplify_map_eq. Qed.

(** C7. Loading a module fails with a configuration error whenever the
    definition unit lacks one of the entry points [init], [prepare],
    [build] (the message names the first one that is missing), or
    whenever [init] returns without having set the module's name; when
    the three entry points exist and [init] sets a name, loading returns
    the Module as [init] left it, its name set, the three callbacks
    having been stored in it before [init] ran (and still there when
    [init] keeps to its contract and leaves the callback table alone). *)
Theorem parse_module_entry_points_and_name
    exec_unit dirname call_init repo modulefile local :
  let load := _parse_module exec_unit dirname call_init repo modulefile in
  let m0 := Module_new repo modulefile (dirname modulefile) in
  exec_unit modulefile = Ok local →
  (local !! "init" = None ∨ local !! "prepare" = None ∨ local !! "build" = None →
   ∃ functionname, functionname ∈ required_functions ∧
     local !! functionname = None ∧
     load = Raise (BlobException
              ("While parsing '" +:+ modulefile +:+ "': " +:+
               "No function '" +:+ functionname +:+ "' found!")))
  ∧
  (∀ init prepare build m,
     local !! "init" = Some init →
     local !! "prepare" = Some prepare →
     local !! "build" = Some build →
     call_init init (loaded_functions m0 init prepare build) = Ok m →
     match mod_name m with
     | None =>
         load = Raise (BlobException
                  ("While parsing '" +:+ modulefile +:+ "': " +:+ no_name_msg))
     | Some name =>
         load = Ok m ∧
         (mod_functions m = mod_functions (loaded_functions m0 init prepare build) →
          mod_functions m !! "init" = Some init ∧
          mod_functions m !! "prepare" = Some prepare ∧
          mod_functions m !! "build" = Some build)
     end).
Proof.
  intros load m0 Hexec. subst load. unfold _parse_module, parse_module_body.
  rewrite Hexec. cbn [rbind]. fold m0. split.
  - intros Hmiss.
    destruct (get_functions_missing local m0 Hmiss) as (fn & Hin & Hnone & ->).
    exists fn. by split_and!.
  - intros init prepare build m Hi Hp Hb Hinit.
    rewrite (get_functions_all local m0 init prepare build Hi Hp Hb). cbn [rbind].
    destruct (loaded_functions_lookup m0 init prepare build) as (Hfi & Hfp & Hfb).
    rewrite Hfi. cbn [rbind]. rewrite Hinit. cbn [rbind].
    destruct (mod_name m) as [name|]; [|done].
    split; [done|]. by intros ->.
Qed.

Lemma parse_module_entry_points_and_name_witness :
  (∃ m, _parse_module Example.exec_unit Example.dirname Example.call_init
          Example.core "core/uart.lb" = Ok m ∧
        mod_name m = Some "uart" ∧ mod_functions m !! "build" = Some 2)
  ∧ _parse_module Example.exec_unit Example.dirname Example.call_init
      Example.core "core/noname.lb" =
    Raise (BlobException
      "While parsing 'core/noname.lb': The init(module) function must set a module name! Please use the set_name() method.")
  ∧ _parse_module Example.exec_unit Example.dirname Example.call_init
      Example.core "core/broken.lb" =
    Raise (BlobException "While parsing 'core/broken.lb': No function 'build' found!").
Proof.
  split_and!.
  - destruct (parse_module_entry_points_and_name Example.exec_unit Example.dirname
                Example.call_init Example.core "core/uart.lb" _ eq_refl) as [_ Hload].
    specialize (Hload 0 1 2 _ eq_refl eq_refl eq_refl eq_refl).
    cbn [mod_name Example.init_uart] in Hload. destruct Hload as [Hload Hfun].
    eexists. split; [exact Hload|]. split; [reflexivity|].
    apply Hfun. reflexivity.
  - destruct (parse_module_entry_points_and_name Example.exec_unit Example.dirname
                Example.call_init Example.core "core/noname.lb" _ eq_refl) as [_ Hload].
    exact (Hload 12 13 14 _ eq_refl eq_refl eq_refl eq_refl).
  - destruct (parse_module_entry_points_and_name Example.exec_unit Example.dirname
                Example.call_init Example.core "core/broken.lb" _ eq_refl) as [Hmiss _].
    destruct Hmiss as (fn & Hin & Hnone & Hload); [by right; right|].
    rewrite Hload. apply list_elem_of_In in Hin. simpl in Hin.
    destruct Hin as [<-|[<-|[<-|[]]]]; [discriminate Hnone | discriminate Hnone | reflexivity].
Defined.

(** ** Availability gate *)

Lemma for_each_app {A S} (body : S → A → result S) (l1 l2 : list A) (s : S) :
  for_each body (l1 ++ l2) s =
    let* s1 := for_each body l1 s in for_each body l2 s1.
Proof.
  revert s. induction l1 as [|x l1 IH]; intros s; simpl; [done|].
  destruct (body s x); simpl; [apply IH | done].
Qed.

Section gate_facts.
Variable ms : ref → Module_.
Variable call_prepare : callback → ref → Repository → list (string * ref) → result bool.
Variable options : list (string * ref).

Local Abbreviation qname := (module_qualified_name ms).
Local Abbreviation available repo m :=
  (run_prepare ms call_prepare options repo m = Ok true).
Local Abbreviation step := (gate ms call_prepare options).

Lemma prepare_modules_gating_order self :
  prepare_modules ms call_prepare self options =
    let* env := for_each step (gating_order self)
                  (env_modules (environment self)) in
    Ok {| repositories := repositories self;
          modules := modules self;
          environment := {| env_modules := env |} |}.
Proof.
  unfold prepare_modules, gating_order. f_equal.
  generalize (env_modules (environment self)).
  induction (dict_values (repositories self)) as [|repo repos IH]; intros env; [done|].
  rewrite bind_cons, for_each_app. cbn [for_each].
  assert (∀ l env0, for_each (gate_module ms call_prepare options repo) l env0 =
                     for_each step (pair repo <$> l) env0) as Hinner.
  { induction l as [|m l IHl]; intros env0; [done|].
    rewrite fmap_cons. cbn [for_each]. unfold gate at 1. cbn [fst snd].
    destruct (gate_module _ _ _ _ _ _); simpl; [apply IHl | done]. }
  rewrite Hinner. destruct (for_each step _ env); simpl; [apply IH | done].
Qed.

Lemma gate_Ok env rm b :
  run_prepare ms call_prepare options rm.1 rm.2 = Ok b →
  step env rm = Ok (if b then <[qname rm.1 rm.2 := rm.2]> env else env).
Proof.
  intros Hrun. unfold gate, gate_module. rewrite Hrun. by destruct b.
Qed.

Lemma gate_inv env rm env' :
  step env rm = Ok env' →
  ∃ b, run_prepare ms call_prepare options rm.1 rm.2 = Ok b ∧
    env' = if b then <[qname rm.1 rm.2 := rm.2]> env else env.
Proof.
  unfold gate, gate_module.
  destruct (run_prepare _ _ _ _ _) as [b|e]; simpl; [|done].
  exists b. split; [done|]. destruct b; congruence.
Qed.

(** The gate runs to the end when no [prepare] raises. *)
Lemma for_each_gate_total l env :
  (∀ rm, rm ∈ l → ∃ b, run_prepare ms call_prepare options rm.1 rm.2 = Ok b) →
  ∃ env', for_each step l env = Ok env'.
Proof.
  revert env. induction l as [|rm l IH]; intros env Hall; simpl; [eauto|].
  destruct (Hall rm) as [b Hb]; [left|].
  rewrite (gate_Ok _ _ _ Hb). simpl. apply IH. intros rm' Hin. apply Hall. by right.
Qed.

(** Every entry was there before or is a module that gated in. *)
Lemma for_each_gate_entries l env env' q m :
  for_each step l env = Ok env' →
  env' !! q = Some m →
  env !! q = Some m ∨
  ∃ repo, (repo, m) ∈ l ∧ available repo m ∧ qname repo m = q.
Proof.
  revert env. induction l as [|[repo0 m0] l IH]; intros env; simpl.
  - intros [= <-]. auto.
  - destruct (step env (repo0, m0)) as [env1|e] eqn:Hgate; simpl; [|done].
    intros Hrest Hlook. destruct (IH env1 Hrest Hlook) as [Hold|(repo & Hin & Hav & Hq)].
    + apply gate_inv in Hgate as (b & Hb & ->). cbn [fst snd] in *.
      destruct b; [|by left].
      destruct (decide (qname repo0 m0 = q)) as [Heq|Hne].
      * rewrite Heq, lookup_insert_eq in Hold. injection Hold as <-.
        right. exists repo0. split; [left | done].
      * rewrite lookup_insert_ne in Hold by done. by left.
    + right. exists repo. split; [by right | done].
Qed.

(** The gate never removes an entry. *)
Lemma for_each_gate_keeps l env env' q :
  for_each step l env = Ok env' → is_Some (env !! q) → is_Some (env' !! q).
Proof.
  revert env. induction l as [|rm l IH]; intros env; simpl.
  - by intros [= <-].
  - destruct (step env rm) as [env1|e] eqn:Hgate; simpl; [|done].
    intros Hrest Hsome. apply (IH env1 Hrest).
    apply gate_inv in Hgate as (b & _ & ->). destruct b; [|done].
    rewrite lookup_insert. by case_decide.
Qed.

(** An entry stays as it is while no module gates in under its name. *)
Lemma for_each_gate_untouched l env env' q :
  for_each step l env = Ok env' →
  (∀ repo m, (repo, m) ∈ l → available repo m → qname repo m ≠ q) →
  env' !! q = env !! q.
Proof.
  revert env. induction l as [|[repo0 m0] l IH]; intros env; simpl.
  - by intros [= <-].
  - destruct (step env (repo0, m0)) as [env1|e] eqn:Hgate; simpl; [|done].
    intros Hrest Hfree. rewrite (IH env1 Hrest).
    + apply gate_inv in Hgate as (b & Hb & ->). cbn [fst snd] in *.
      destruct b; [|done]. apply lookup_insert_ne. apply Hfree; [left | done].
    + intros repo m Hin. apply Hfree. by right.
Qed.

(** The last module that gates in under a name owns the entry. *)
Lemma for_each_gate_last l1 l2 repo m env env' :
  for_each step (l1 ++ (repo, m) :: l2) env = Ok env' →
  available repo m →
  (∀ repo' m', (repo', m') ∈ l2 → available repo' m' →
     qname repo' m' ≠ qname repo m) →
  env' !! qname repo m = Some m.
Proof.
  rewrite for_each_app. destruct (for_each step l1 env) as [env1|e]; simpl; [|done].
  intros Hrun Hav Hfree.
  rewrite (gate_Ok env1 (repo, m) true Hav) in Hrun. cbn [rbind fst snd] in Hrun.
  rewrite (for_each_gate_untouched _ _ _ _ Hrun Hfree).
  apply lookup_insert_eq.
Qed.

End gate_facts.

(** C9. When no [prepare] callback raises, [prepare_modules] runs to the
    end without an error and, in the Environment it leaves: every module
    whose [prepare] returned true has an entry under its qualified name;
    every entry that was not there before is a module whose [prepare]
    returned true, filed under its qualified name, so that a module whose
    [prepare] returned false has none; and when several modules that
    gated in share a qualified name, the entry is the one gated last. *)
Theorem prepare_modules_registers_available_modules
    (ms : ref → Module_)
    (call_prepare : callback → ref → Repository → list (string * ref) → result bool)
    (self : Parser) (options : list (string * ref)) :
  let env := env_modules (environment self) in
  let qname := module_qualified_name ms in
  let returned repo m b := run_prepare ms call_prepare options repo m = Ok b in
  (∀ repo m, (repo, m) ∈ gating_order self → ∃ b, returned repo m b) →
  ∃ self',
    prepare_modules ms call_prepare self options = Ok self' ∧
    let env' := env_modules (environment self') in
    (∀ repo m, (repo, m) ∈ gating_order self → returned repo m true →
       is_Some (env' !! qname repo m))
    ∧
    (∀ q m, env' !! q = Some m →
       env !! q = Some m ∨
       ∃ repo, (repo, m) ∈ gating_order self ∧ returned repo m true ∧
         qname repo m = q)
    ∧
    (∀ repo m, (repo, m) ∈ gating_order self → returned repo m false →
       env !! qname repo m = None →
       (∀ repo' m', (repo', m') ∈ gating_order self → returned repo' m' true →
          qname repo' m' ≠ qname repo m) →
       env' !! qname repo m = None)
    ∧
    (∀ before after repo m,
       gating_order self = before ++ (repo, m) :: after →
       returned repo m true →
       (∀ repo' m', (repo', m') ∈ after → returned repo' m' true →
          qname repo' m' ≠ qname repo m) →
       env' !! qname repo m = Some m).
Proof.
  intros env qname returned Hall.
  destruct (for_each_gate_total ms call_prepare options (gating_order self) env)
    as [env' Hrun].
  { intros [repo m]. apply Hall. }
  exists {| repositories := repositories self; modules := modules self;
            environment := {| env_modules := env' |} |}.
  split.
  { rewrite prepare_modules_gating_order. fold env. by rewrite Hrun. }
  cbn [environment env_modules].
  assert (∀ q m, env' !! q = Some m →
            env !! q = Some m ∨
            ∃ repo, (repo, m) ∈ gating_order self ∧ returned repo m true ∧
              qname repo m = q) as Hentries.
  { intros q m. apply (for_each_gate_entries _ _ _ _ _ _ _ _ Hrun). }
  split_and!.
  - intros repo m Hin Hav.
    apply list_elem_of_split in Hin as (l1 & l2 & Heq). rewrite Heq in Hrun.
    rewrite for_each_app in Hrun.
    destruct (for_each _ l1 env) as [env1|e]; simpl in Hrun; [|done].
    rewrite (gate_Ok ms call_prepare options env1 (repo, m) true Hav) in Hrun.
    cbn [rbind fst snd] in Hrun.
    apply (for_each_gate_keeps _ _ _ _ _ _ _ Hrun).
    rewrite lookup_insert_eq. by eexists.
  - exact Hentries.
  - intros repo m Hin Hfalse Hnone Hfree.
    destruct (env' !! qname repo m) as [m'|] eqn:Hlook; [|done].
    destruct (Hentries _ _ Hlook) as [Hold|(repo' & Hin' & Hav' & Hq)].
    + congruence.
    + by destruct (Hfree repo' m' Hin' Hav').
  - intros before after repo m Heq Hav Hfree. rewrite Heq in Hrun.
    apply (for_each_gate_last _ _ _ _ _ _ _ _ _ Hrun Hav Hfree).
Qed.

Lemma prepare_modules_registers_available_modules_witness :
  ∃ self',
    prepare_modules Example.module_objects Example.call_prepare Example.parser []
      = Ok self' ∧
    env_modules (environment self') !! "core:uart" = Some 3 ∧
    env_modules (environment self') !! "core:timer" = None.
Proof.
  destruct (prepare_modules_registers_available_modules Example.module_objects
              Example.call_prepare Example.parser [])
    as (self' & Hrun & _ & _ & Hfalse & Hlast).
  { intros repo m _. eexists. unfold run_prepare. cbn [Example.module_objects mod_functions].
    rewrite lookup_insert_ne, lookup_insert_eq by done. reflexivity. }
  exists self'. split; [exact Hrun|]. split.
  - apply (Hlast [(Example.core, 0); (Example.core, 1)] [(Example.ext, 2)]
             Example.core 3); [reflexivity | by vm_compute |].
    intros repo' m' Hin. apply list_elem_of_In in Hin. simpl in Hin.
    destruct Hin as [[= <- <-]|[]]. by vm_compute.
  - apply (Hfalse Example.core 1); [right; left | by vm_compute | reflexivity |].
    intros repo' m' Hin. apply list_elem_of_In in Hin. simpl in Hin.
    destruct Hin as [[= <- <-]|[[= <- <-]|[[= <- <-]|[[= <- <-]|[]]]]]; by vm_compute.
Defined.

(** ** Dependency closure *)

Lemma get_module_Ok env modulename m :
  get_module env modulename = Ok m ↔ env_modules env !! modulename = Some m.
Proof. unfold get_module. destruct (_ !! _); naive_solver. Qed.

Lemma registered_length env (l : list ref) :
  NoDup l → (∀ m, m ∈ l → registered env m) →
  length l ≤ size (env_modules env).
Proof.
  intros Hnd Hreg. rewrite <- (length_map_to_list (env_modules env)).
  rewrite <- (length_fmap snd (map_to_list (env_modules env))).
  apply submseteq_length, NoDup_submseteq; [done|].
  intros m [name Hname]%Hreg. apply list_elem_of_fmap. exists (name, m).
  split; [done|]. by apply elem_of_map_to_list.
Qed.

Section resolver_facts.
Variable ms : ref → Module_.
Variable env : Environment.

Local Abbreviation fresh_additions := (fresh_additions env).

Lemma add_dependencies_fresh selected_modules dependencies additional additional' :
  add_dependencies env selected_modules dependencies additional = Ok additional' →
  fresh_additions selected_modules additional →
  fresh_additions selected_modules additional'.
Proof.
  revert additional. induction dependencies as [|d deps IH]; intros additional; simpl.
  - by intros [= <-].
  - destruct (get_module env d) as [dep|e] eqn:Hget; simpl; [|done].
    apply get_module_Ok in Hget.
    destruct (bool_decide (dep ∉ selected_modules)) eqn:Hsel; simpl;
      [destruct (bool_decide (dep ∉ additional)) eqn:Hadd|]; simpl;
      intros Hrest Hfresh; apply (IH _ Hrest); [|done..].
    apply bool_decide_eq_true in Hsel, Hadd. destruct Hfresh as [Hnd Hall].
    split.
    + apply list.NoDup_app. split_and!; [done | | apply NoDup_singleton].
      intros x Hx ->%list_elem_of_singleton. done.
    + intros x [Hx| ->%list_elem_of_singleton]%elem_of_app; [by apply Hall|].
      split; [by exists d | done].
Qed.

Lemma scan_current_fresh selected_modules current additional additional' :
  scan_current ms env selected_modules current additional = Ok additional' →
  fresh_additions selected_modules additional →
  fresh_additions selected_modules additional'.
Proof.
  revert additional. induction current as [|m current IH]; intros additional; simpl.
  - by intros [= <-].
  - destruct (add_dependencies _ _ _ _) as [additional1|e] eqn:Hadd; simpl; [|done].
    intros Hrest Hfresh. apply (IH _ Hrest).
    by apply (add_dependencies_fresh _ _ _ _ Hadd).
Qed.

Lemma fresh_additions_nil selected_modules : fresh_additions selected_modules [].
Proof. split; [apply NoDup_nil_2 | by intros m ?%elem_of_nil]. Qed.

Lemma add_dependencies_total selected_modules dependencies additional :
  (∀ d, d ∈ dependencies → is_Some (env_modules env !! d)) →
  ∃ additional',
    add_dependencies env selected_modules dependencies additional = Ok additional'.
Proof.
  revert additional. induction dependencies as [|d deps IH]; intros additional Hall;
    simpl; [eauto|].
  destruct (Hall d) as [dep Hdep]; [left|].
  apply get_module_Ok in Hdep. rewrite Hdep. simpl.
  destruct (_ && _); apply IH; intros d' Hd'; apply Hall; by right.
Qed.

Lemma scan_current_total selected_modules current additional :
  dependencies_resolve ms env →
  (∀ m, m ∈ current → registered env m) →
  ∃ additional',
    scan_current ms env selected_modules current additional = Ok additional'.
Proof.
  intros Hdeps. revert additional.
  induction current as [|m current IH]; intros additional Hreg; simpl; [eauto|].
  destruct (add_dependencies_total selected_modules (mod_dependencies (ms m))
              additional) as [additional1 ->].
  { intros d Hd. apply (Hdeps m); [apply Hreg; left | done]. }
  simpl. apply IH. intros m' Hm'. apply Hreg. by right.
Qed.

End resolver_facts.

Section closure_facts.
Variable ms : ref → Module_.
Variable env : Environment.

(** The result of the loop is what was selected, followed by additions
    that are pairwise distinct and were not selected. *)
Lemma closure_loop_additions fuel selected_modules current selected :
  closure_loop ms fuel env selected_modules current = Some (Ok selected) →
  ∃ added, selected = selected_modules ++ added ∧ NoDup added ∧
    ∀ m, m ∈ added → registered env m ∧ m ∉ selected_modules.
Proof.
  revert selected_modules current.
  induction fuel as [|fuel IH]; intros selected_modules current; simpl; [done|].
  destruct (scan_current _ _ _ _ _) as [additional|e] eqn:Hscan; [|done].
  apply scan_current_fresh in Hscan as [Hnd Hfresh];
    [|apply fresh_additions_nil].
  destruct additional as [|m0 additional].
  { intros [= <-]. exists []. rewrite app_nil_r.
    split_and!; [done | apply NoDup_nil_2 | by intros m ?%elem_of_nil]. }
  intros (added & -> & Hnd' & Hfresh')%IH.
  exists ((m0 :: additional) ++ added). rewrite app_assoc. split_and!; [done| |].
  - apply list.NoDup_app. split_and!; [done | | done].
    intros m Hm Hm'. apply Hfresh' in Hm' as [_ Hnot].
    apply Hnot, elem_of_app. by right.
  - intros m [Hm|Hm]%elem_of_app; [by apply Hfresh|].
    apply Hfresh' in Hm as [Hreg Hnot]. split; [done|].
    intros Hin. apply Hnot, elem_of_app. by left.
Qed.

(** With one unit of fuel per module that can still be added, and one
    more, the loop reaches its [break] or raises. *)
Lemma closure_loop_terminates fuel requested added current :
  NoDup added → (∀ m, m ∈ added → registered env m) →
  size (env_modules env) < fuel + length added →
  ∃ r, closure_loop ms fuel env (requested ++ added) current = Some r.
Proof.
  revert added current. induction fuel as [|fuel IH]; intros added current Hnd Hreg Hfuel.
  - pose proof (registered_length env added Hnd Hreg). lia.
  - simpl. destruct (scan_current _ _ _ _ _) as [additional|e] eqn:Hscan; [|eauto].
    apply scan_current_fresh in Hscan as [Hnd' Hfresh];
      [|apply fresh_additions_nil].
    destruct additional as [|m0 additional]; [eauto|].
    rewrite <- app_assoc. apply IH.
    + apply list.NoDup_app. split_and!; [done | | done].
      intros m Hm Hm'. apply Hfresh in Hm' as [_ Hnot].
      apply Hnot, elem_of_app. by right.
    + intros m [Hm|Hm]%elem_of_app; [by apply Hreg | by apply Hfresh].
    + rewrite length_app. simpl. lia.
Qed.

(** When every dependency name resolves, the loop does not raise. *)
Lemma closure_loop_no_error fuel selected_modules current r :
  dependencies_resolve ms env →
  (∀ m, m ∈ current → registered env m) →
  closure_loop ms fuel env selected_modules current = Some r →
  ∃ selected, r = Ok selected.
Proof.
  intros Hdeps. revert selected_modules current.
  induction fuel as [|fuel IH]; intros selected_modules current Hreg; simpl; [done|].
  destruct (scan_current_total ms env selected_modules current [] Hdeps Hreg)
    as [additional Hscan].
  rewrite Hscan. apply scan_current_fresh in Hscan as [_ Hfresh];
    [|apply fresh_additions_nil].
  destruct additional as [|m0 additional]; [intros [= <-]; eauto|].
  apply IH. intros m Hm. by apply Hfresh.
Qed.

Lemma lookup_requested_spec requested_modules selected_modules selected :
  lookup_requested env requested_modules selected_modules = Ok selected →
  ∃ found, selected = selected_modules ++ found ∧
    Forall2 (λ name m, env_modules env !! name = Some m) requested_modules found.
Proof.
  revert selected_modules.
  induction requested_modules as [|name names IH]; intros selected_modules; simpl.
  - intros [= <-]. exists []. by rewrite app_nil_r.
  - destruct (get_module env name) as [m|e] eqn:Hget; simpl; [|done].
    apply get_module_Ok in Hget.
    intros (found & -> & Hall)%IH. exists (m :: found).
    rewrite <- app_assoc. split; [done | by constructor].
Qed.

Lemma lookup_requested_total requested_modules selected_modules :
  (∀ name, name ∈ requested_modules → is_Some (env_modules env !! name)) →
  ∃ selected,
    lookup_requested env requested_modules selected_modules = Ok selected.
Proof.
  revert selected_modules.
  induction requested_modules as [|name names IH]; intros selected_modules Hall;
    simpl; [eauto|].
  destruct (Hall name) as [m Hm]; [left|].
  apply get_module_Ok in Hm. rewrite Hm. simpl.
  apply IH. intros name' Hin. apply Hall. by right.
Qed.

End closure_facts.

(** C2. With A requested, A depending on B, B on C and C on nothing, all
    three registered in the Environment, [resolve_dependencies] returns
    the sequence A, B, C: exactly the set of the three, A first. Three
    iterations of the loop are enough. *)
Theorem resolve_dependencies_chain
    (ms : ref → Module_) self modules fuel name_a name_b name_c (a b c : ref) :
  let registry := env_modules (environment self) in
  registry !! name_a = Some a →
  registry !! name_b = Some b →
  registry !! name_c = Some c →
  mod_dependencies (ms a) = [name_b] →
  mod_dependencies (ms b) = [name_c] →
  mod_dependencies (ms c) = [] →
  3 ≤ fuel →
  ∃ selected,
    resolve_dependencies ms fuel self modules [name_a] = Some (Ok selected) ∧
    selected = [a; b; c] ∧
    head selected = Some a ∧
    ∀ m, m ∈ selected ↔ m = a ∨ m = b ∨ m = c.
Proof.
  intros registry Ha Hb Hc Hda Hdb Hdc Hfuel.
  assert (b ≠ c) as Hbc by (intros ->; congruence).
  assert (a ≠ c) as Hac by (intros ->; congruence).
  assert (a ≠ b) as Hab.
  { intros ->. rewrite Hda in Hdb. injection Hdb as ->. congruence. }
  exists [a; b; c]. split_and!; [|done|done|].
  - destruct fuel as [|[|[|fuel]]]; [lia..|].
    unfold resolve_dependencies, lookup_requested, get_module. fold registry.
    rewrite Ha. cbn [rbind app].
    cbn [closure_loop scan_current]. rewrite Hda.
    cbn [add_dependencies]. unfold get_module. fold registry. rewrite Hb. cbn [rbind].
    rewrite (bool_decide_true (b ∉ [a]))
      by (by intros ->%list_elem_of_singleton).
    rewrite (bool_decide_true (b ∉ [])) by apply not_elem_of_nil.
    cbn [andb app rbind add_dependencies closure_loop scan_current]. rewrite Hdb.
    cbn [add_dependencies]. unfold get_module. fold registry. rewrite Hc. cbn [rbind].
    rewrite (bool_decide_true (c ∉ [a; b]))
      by (by intros [->| ->%list_elem_of_singleton]%elem_of_cons).
    rewrite (bool_decide_true (c ∉ [])) by apply not_elem_of_nil.
    cbn [andb app rbind add_dependencies closure_loop scan_current]. rewrite Hdc. done.
  - intros m. rewrite !elem_of_cons, elem_of_nil. tauto.
Qed.

Lemma resolve_dependencies_chain_witness :
  resolve_dependencies Example.chain 3 Example.gated ∅ ["r:A"] = Some (Ok [0; 1; 2]).
Proof.
  destruct (resolve_dependencies_chain Example.chain Example.gated ∅ 3
              "r:A" "r:B" "r:C" 0 1 2) as (selected & Hrun & -> & _);
    [reflexivity.. | lia | exact Hrun].
Defined.

(** C3 (divergence). The result is meant to contain each module exactly
    once, for every request. The requested modules are appended without
    the membership test that dependencies go through, so a module that is
    requested twice is returned twice: with the cycle A -> B -> A and the
    request A, A the result is A, A, B. *)
Lemma requested_twice_returned_twice :
  resolve_dependencies Example.cycle 3 Example.gated ∅ ["r:A"; "r:A"]
    = Some (Ok [0; 0; 1]) ∧
  ¬ NoDup [0; 0; 1].
Proof.
  split; [reflexivity|]. intros Hnd. apply NoDup_cons_1_1 in Hnd. apply Hnd. left.
Qed.

(** What the membership test does give. For every request and every
    dependency graph, cycles included, what [resolve_dependencies] returns
    is the requested modules, as requested, followed by the added
    dependencies, each of which occurs once and is not among the requested
    ones; so, when the request names pairwise distinct modules, the
    returned sequence contains each module exactly once. *)
Theorem resolve_dependencies_adds_each_module_once
    (ms : ref → Module_) fuel self modules requested_modules selected :
  resolve_dependencies ms fuel self modules requested_modules
    = Some (Ok selected) →
  ∃ requested added,
    Forall2 (λ name m, env_modules (environment self) !! name = Some m)
      requested_modules requested ∧
    selected = requested ++ added ∧
    NoDup added ∧
    (∀ m, m ∈ added → m ∉ requested) ∧
    (NoDup requested → NoDup selected).
Proof.
  unfold resolve_dependencies.
  destruct (lookup_requested _ _ _) as [requested|e] eqn:Hreq; [|done].
  apply lookup_requested_spec in Hreq as (found & -> & Hfound). cbn [app].
  intros (added & -> & Hnd & Hfresh)%closure_loop_additions.
  exists found, added. split_and!; [done | done | done | |].
  - intros m Hm. by apply Hfresh.
  - intros Hnd'. apply list.NoDup_app. split_and!; [done | | done].
    intros m Hm Hm'. by apply Hfresh in Hm' as [_ Hnot].
Qed.

Lemma resolve_dependencies_adds_each_module_once_witness :
  resolve_dependencies Example.cycle 3 Example.gated ∅ ["r:A"] = Some (Ok [0; 1]) ∧
  NoDup [0; 1].
Proof.
  split; [reflexivity|].
  destruct (resolve_dependencies_adds_each_module_once Example.cycle 3
              Example.gated ∅ ["r:A"] [0; 1] eq_refl)
    as (requested & added & Hreq & Heq & _ & _ & Hnd).
  apply Hnd.
  apply Forall2_cons_inv_l in Hreq as (m & found & Hm & ->%Forall2_nil_inv_l & ->).
  apply NoDup_singleton.
Defined.

(** C6. For every Environment (a finite map), every request whose names
    all resolve in it and every dependency graph whose names all resolve
    in it, cyclic or not, [resolve_dependencies] terminates with a
    result: the loop breaks after at most one iteration per registered
    module and one more, because an iteration that does not break appends
    at least one registered module that was not selected before. *)
Theorem resolve_dependencies_terminates
    (ms : ref → Module_) self modules requested_modules fuel :
  let env := environment self in
  (∀ name, name ∈ requested_modules → is_Some (env_modules env !! name)) →
  dependencies_resolve ms env →
  size (env_modules env) < fuel →
  ∃ selected,
    resolve_dependencies ms fuel self modules requested_modules
      = Some (Ok selected).
Proof.
  intros env Hreq Hdeps Hfuel. unfold resolve_dependencies. fold env.
  destruct (lookup_requested_total env requested_modules [] Hreq) as [requested Hlook].
  rewrite Hlook.
  apply lookup_requested_spec in Hlook as (found & -> & Hfound). cbn [app].
  destruct (closure_loop_terminates ms env fuel found [] found) as [r Hr].
  { apply NoDup_nil_2. }
  { by intros m ?%elem_of_nil. }
  { simpl. lia. }
  rewrite app_nil_r in Hr. rewrite Hr.
  destruct (closure_loop_no_error ms env fuel found found r Hdeps) as [selected ->];
    [|done|eauto].
  intros m Hm. apply list_elem_of_lookup in Hm as [i Hi].
  destruct (Forall2_lookup_r _ _ _ _ _ Hfound Hi) as (name & _ & Hname).
  by exists name.
Qed.

Lemma resolve_dependencies_terminates_witness :
  ∃ selected,
    resolve_dependencies Example.cycle 4 Example.gated ∅ ["r:A"; "r:A"]
      = Some (Ok selected).
Proof.
  apply (resolve_dependencies_terminates Example.cycle Example.gated ∅
           ["r:A"; "r:A"] 4).
  - intros name Hin. apply list_elem_of_In in Hin. simpl in Hin.
    destruct Hin as [<-|[<-|[]]]; by eexists.
  - intros m d _ Hd. apply list_elem_of_In in Hd.
    destruct m as [|[|m]]; simpl in Hd;
      [destruct Hd as [<-|[]] | destruct Hd as [<-|[]] | destruct Hd]; by eexists.
  - vm_compute. lia.
Defined.

(** C10. The [modules] argument has no influence on the result. *)
Theorem resolve_dependencies_ignores_modules
    (ms : ref → Module_) fuel self (modules1 modules2 : gmap string ref)
    requested_modules :
  resolve_dependencies ms fuel self modules1 requested_modules =
  resolve_dependencies ms fuel self modules2 requested_modules.
Proof. reflexivity. Qed.

(** * Further properties *)

(** ** Dependency closure: what the result contains *)

Section closure_contents.
Variable ms : ref → Module_.
Variable env : Environment.

(** Every dependency of [m] resolves to a module of [l]. *)
Local Abbreviation needs_met m l :=
  (∀ name, name ∈ mod_dependencies (ms m) →
     ∃ dependency, env_modules env !! name = Some dependency ∧ dependency ∈ l).

Lemma add_dependencies_spec selected_modules dependencies additional additional' :
  add_dependencies env selected_modules dependencies additional = Ok additional' →
  (∀ m, m ∈ additional → m ∈ additional') ∧
  (∀ m, m ∈ additional' →
     m ∈ additional ∨
     ∃ name, name ∈ dependencies ∧ env_modules env !! name = Some m) ∧
  (∀ name, name ∈ dependencies →
     ∃ dependency, env_modules env !! name = Some dependency ∧
       dependency ∈ selected_modules ++ additional').
Proof.
  revert additional. induction dependencies as [|d deps IH]; intros additional; simpl.
  - intros [= <-]. split_and!; [done | by left | by intros name ?%elem_of_nil].
  - destruct (get_module env d) as [dep|e] eqn:Hget; simpl; [|done].
    apply get_module_Ok in Hget.
    set (grown := if bool_decide (dep ∉ selected_modules)
                       && bool_decide (dep ∉ additional)
                  then additional ++ [dep] else additional).
    assert (add_dependencies env selected_modules deps grown = Ok additional' →
            (∀ m, m ∈ additional → m ∈ grown) →
            (∀ m, m ∈ grown → m ∈ additional ∨ m = dep) →
            dep ∈ selected_modules ++ grown →
            (∀ m, m ∈ additional → m ∈ additional') ∧
            (∀ m, m ∈ additional' →
               m ∈ additional ∨
               ∃ name, name ∈ d :: deps ∧ env_modules env !! name = Some m) ∧
            (∀ name, name ∈ d :: deps →
               ∃ dependency, env_modules env !! name = Some dependency ∧
                 dependency ∈ selected_modules ++ additional')) as Hstep.
    { intros (Hmono & Hnew & Hmet)%IH Hgrow Hback Hdep. split_and!.
      - intros m Hm. by apply Hmono, Hgrow.
      - intros m [Hm|(name & Hname & Hres)]%Hnew.
        + destruct (Hback m Hm) as [?| ->]; [by left|].
          right. exists d. split; [left | done].
        + right. exists name. split; [by right | done].
      - intros name [->|Hname]%elem_of_cons; [|by apply Hmet].
        exists dep. split; [done|].
        apply elem_of_app in Hdep as [?|?]; apply elem_of_app; [by left|].
        right. by apply Hmono. }
    subst grown.
    destruct (bool_decide (dep ∉ selected_modules)) eqn:Hsel;
      [destruct (bool_decide (dep ∉ additional)) eqn:Hadd|]; cbn [andb] in *;
      intros Hrest; apply (Hstep Hrest); clear Hstep.
    + intros m Hm. apply elem_of_app. by left.
    + intros m [Hm| ->%list_elem_of_singleton]%elem_of_app; auto.
    + rewrite !elem_of_app, list_elem_of_singleton. auto.
    + done.
    + auto.
    + apply bool_decide_eq_false in Hadd. apply dec_stable in Hadd.
      apply elem_of_app. by right.
    + done.
    + auto.
    + apply bool_decide_eq_false in Hsel. apply dec_stable in Hsel.
      apply elem_of_app. by left.
Qed.

Lemma scan_current_spec selected_modules current additional additional' :
  scan_current ms env selected_modules current additional = Ok additional' →
  (∀ m, m ∈ additional → m ∈ additional') ∧
  (∀ m, m ∈ additional' →
     m ∈ additional ∨
     ∃ m0 name, m0 ∈ current ∧ name ∈ mod_dependencies (ms m0) ∧
       env_modules env !! name = Some m) ∧
  (∀ m, m ∈ current → needs_met m (selected_modules ++ additional')).
Proof.
  revert additional. induction current as [|m0 current IH]; intros additional; simpl.
  - intros [= <-]. split_and!; [done | by left | by intros m ?%elem_of_nil].
  - destruct (add_dependencies _ _ _ _) as [additional1|e] eqn:Hadd; simpl; [|done].
    apply add_dependencies_spec in Hadd as (Hmono1 & Hnew1 & Hmet1).
    intros (Hmono & Hnew & Hmet)%IH. split_and!.
    + intros m Hm. by apply Hmono, Hmono1.
    + intros m [Hm|(m1 & name & Hm1 & Hname & Hres)]%Hnew.
      * destruct (Hnew1 m Hm) as [?|(name & Hname & Hres)]; [by left|].
        right. exists m0, name. split_and!; [left | done | done].
      * right. exists m1, name. split_and!; [by right | done | done].
    + intros m [->|Hm]%elem_of_cons; [|by apply Hmet].
      intros name Hname. destruct (Hmet1 name Hname) as (dep & Hres & Hin).
      exists dep. split; [done|].
      apply elem_of_app in Hin as [?|?]; apply elem_of_app; [by left|].
      right. by apply Hmono.
Qed.

(** The loop ends with every dependency of every selected module
    selected, when it starts with that true of the modules that are not in
    [current]; and it selects only modules that [current] needs. *)
Lemma closure_loop_closed fuel selected_modules current selected :
  closure_loop ms fuel env selected_modules current = Some (Ok selected) →
  (∀ m, m ∈ current → m ∈ selected_modules) →
  (∀ m, m ∈ selected_modules → m ∈ current ∨ needs_met m selected_modules) →
  (∀ m, m ∈ selected → needs_met m selected) ∧
  (∀ m, m ∈ selected → reachable ms env selected_modules m).
Proof.
  revert selected_modules current.
  induction fuel as [|fuel IH]; intros selected_modules current; simpl; [done|].
  destruct (scan_current _ _ _ _ _) as [additional|e] eqn:Hscan; [|done].
  apply scan_current_spec in Hscan as (_ & Hnew & Hmet).
  destruct additional as [|m0 additional].
  - intros [= <-] Hcur Hinv. rewrite app_nil_r in Hmet. split.
    + intros m Hm. destruct (Hinv m Hm) as [?|?]; [by apply Hmet | done].
    + intros m Hm. by apply reachable_root.
  - intros Hloop Hcur Hinv.
    destruct (IH _ _ Hloop) as [Hclosed Hreach].
    + intros m Hm. apply elem_of_app. by right.
    + intros m [Hm|Hm]%elem_of_app; [|by left]. right.
      destruct (Hinv m Hm) as [Hc|Hn]; [by apply Hmet|].
      intros name Hname. destruct (Hn name Hname) as (dep & Hres & Hin).
      exists dep. split; [done|]. apply elem_of_app. by left.
    + split; [done|]. intros m Hm.
      specialize (Hreach m Hm). clear Hm.
      induction Hreach as [m Hm|m name dep _ IHr Hname Hres].
      * apply elem_of_app in Hm as [Hm|Hm]; [by apply reachable_root|].
        destruct (Hnew m Hm) as [?%elem_of_nil|(m1 & name & Hm1 & Hname & Hres)];
          [done|].
        apply (reachable_dependency _ _ _ m1 name); [|done|done].
        apply reachable_root. by apply Hcur.
      * by apply (reachable_dependency _ _ _ m name).
Qed.

End closure_contents.

Lemma lookup_requested_resolves env requested_modules requested selected_modules :
  resolves_to env requested_modules requested →
  lookup_requested env requested_modules selected_modules
    = Ok (selected_modules ++ requested).
Proof.
  intros Hres. revert selected_modules.
  induction Hres as [|name m names found Hname _ IH]; intros selected_modules; simpl.
  - by rewrite app_nil_r.
  - apply get_module_Ok in Hname. rewrite Hname. simpl.
    rewrite IH. by rewrite <- app_assoc.
Qed.

Lemma lookup_requested_unknown env before name after found selected_modules :
  resolves_to env before found →
  env_modules env !! name = None →
  lookup_requested env (before ++ name :: after) selected_modules
    = Raise (LookupError name).
Proof.
  intros Hres Hnone. revert selected_modules.
  induction Hres as [|name0 m names found Hname _ IH]; intros selected_modules; simpl.
  - unfold get_module. by rewrite Hnone.
  - apply get_module_Ok in Hname. rewrite Hname. simpl. apply IH.
Qed.

Lemma add_dependencies_Raise env selected_modules dependencies additional e :
  add_dependencies env selected_modules dependencies additional = Raise e →
  ∃ name, name ∈ dependencies ∧ env_modules env !! name = None ∧
    e = LookupError name.
Proof.
  revert additional. induction dependencies as [|d deps IH]; intros additional; simpl;
    [done|].
  unfold get_module at 1. destruct (env_modules env !! d) as [dep|] eqn:Hd; simpl.
  - intros Hrest.
    assert (∃ a, add_dependencies env selected_modules deps a = Raise e)
      as [a (name & Hin & Hnone & ->)%IH] by (destruct (_ && _); eauto).
    exists name. split_and!; [by right | done | done].
  - intros [= <-]. exists d. split_and!; [left | done | done].
Qed.

Lemma scan_current_Raise ms env selected_modules current additional e :
  scan_current ms env selected_modules current additional = Raise e →
  ∃ m name, m ∈ current ∧ name ∈ mod_dependencies (ms m) ∧
    env_modules env !! name = None ∧ e = LookupError name.
Proof.
  revert additional. induction current as [|m current IH]; intros additional; simpl;
    [done|].
  destruct (add_dependencies _ _ _ _) as [additional1|e1] eqn:Hadd; simpl.
  - intros (m1 & name & Hin & Hname & Hnone & ->)%IH.
    exists m1, name. split_and!; [by right | done..].
  - intros [= <-]. apply add_dependencies_Raise in Hadd as (name & Hname & Hnone & ->).
    exists m, name. split_and!; [left | done..].
Qed.

Lemma closure_loop_Raise ms fuel env selected_modules current e :
  closure_loop ms fuel env selected_modules current = Some (Raise e) →
  ∃ name, env_modules env !! name = None ∧ e = LookupError name.
Proof.
  revert selected_modules current.
  induction fuel as [|fuel IH]; intros selected_modules current; simpl; [done|].
  destruct (scan_current _ _ _ _ _) as [[|m0 additional]|e1] eqn:Hscan.
  - done.
  - apply IH.
  - intros [= <-].
    apply scan_current_Raise in Hscan as (m & name & _ & _ & Hnone & ->). eauto.
Qed.

(** X1. The result is closed under dependencies: every dependency name of
    every returned module resolves in the Environment, to a module that
    is returned too. *)
Theorem resolve_dependencies_closed
    (ms : ref → Module_) fuel self modules requested_modules selected :
  resolve_dependencies ms fuel self modules requested_modules
    = Some (Ok selected) →
  ∀ m name, m ∈ selected → name ∈ mod_dependencies (ms m) →
    ∃ dependency,
      env_modules (environment self) !! name = Some dependency ∧
      dependency ∈ selected.
Proof.
  unfold resolve_dependencies.
  destruct (lookup_requested _ _ _) as [requested|e]; [|done].
  intros Hloop m name Hm Hname.
  apply closure_loop_closed in Hloop as [Hclosed _]; [by apply (Hclosed m)|done|auto].
Qed.

Lemma resolve_dependencies_closed_witness :
  ∃ dependency,
    env_modules (environment Example.gated) !! "r:C" = Some dependency ∧
    dependency ∈ [0; 1; 2].
Proof.
  apply (resolve_dependencies_closed Example.chain 3 Example.gated ∅ ["r:A"]
           [0; 1; 2] eq_refl 1 "r:C"); [right; left | left].
Defined.

(** X2. The result is exactly the transitive closure of the request: a
    module is returned if and only if it is one of the requested modules
    or can be reached from one of them along dependency names, each
    resolved in the Environment. *)
Theorem resolve_dependencies_exactly_reachable
    (ms : ref → Module_) fuel self modules requested_modules selected :
  resolve_dependencies ms fuel self modules requested_modules
    = Some (Ok selected) →
  ∃ requested,
    resolves_to (environment self) requested_modules requested ∧
    ∀ m, m ∈ selected ↔ reachable ms (environment self) requested m.
Proof.
  intros Hrun. pose proof (resolve_dependencies_closed _ _ _ _ _ _ Hrun) as Hclosed.
  revert Hrun. unfold resolve_dependencies.
  destruct (lookup_requested _ _ _) as [requested|e] eqn:Hreq; [|done].
  apply lookup_requested_spec in Hreq as (found & -> & Hfound). cbn [app].
  intros Hloop. exists found. split; [done|].
  pose proof Hloop as (added & -> & _)%closure_loop_additions.
  apply closure_loop_closed in Hloop as [_ Hreach]; [|done|auto].
  intros m. split; [apply Hreach|].
  induction 1 as [m Hm|m name dep _ IHr Hname Hres].
  - apply elem_of_app. by left.
  - destruct (Hclosed m name IHr Hname) as (dep' & Hres' & Hin). congruence.
Qed.

Lemma resolve_dependencies_exactly_reachable_witness :
  ∃ requested,
    resolves_to (environment Example.gated) ["r:A"] requested ∧
    ∀ m, m ∈ [0; 1] ↔ reachable Example.cycle (environment Example.gated) requested m.
Proof.
  apply (resolve_dependencies_exactly_reachable Example.cycle 3 Example.gated ∅
           ["r:A"] [0; 1] eq_refl).
Defined.

(** X3. A requested name that has no entry in the Environment makes
    [resolve_dependencies] fail with the lookup error of the first such
    name, before the loop is entered. *)
Theorem resolve_dependencies_unknown_request
    (ms : ref → Module_) fuel self modules before name after found :
  resolves_to (environment self) before found →
  env_modules (environment self) !! name = None →
  resolve_dependencies ms fuel self modules (before ++ name :: after)
    = Some (Raise (LookupError name)).
Proof.
  intros Hres Hnone. unfold resolve_dependencies.
  by rewrite (lookup_requested_unknown _ _ _ _ _ _ Hres Hnone).
Qed.

Lemma resolve_dependencies_unknown_request_witness :
  resolve_dependencies Example.chain 0 Example.gated ∅ ["r:A"; "r:D"; "r:B"]
    = Some (Raise (LookupError "r:D")).
Proof.
  apply (resolve_dependencies_unknown_request Example.chain 0 Example.gated ∅
           ["r:A"] "r:D" ["r:B"] [0]); [|reflexivity].
  by repeat constructor.
Defined.

(** X4. When a module that the request needs declares a dependency name
    that has no entry in the Environment, [resolve_dependencies] does not
    return a list: it fails with the lookup error of a name that has no
    entry. *)
Theorem resolve_dependencies_unknown_dependency
    (ms : ref → Module_) fuel self modules requested_modules requested m name :
  let env := environment self in
  resolves_to env requested_modules requested →
  reachable ms env requested m →
  name ∈ mod_dependencies (ms m) →
  env_modules env !! name = None →
  size (env_modules env) < fuel →
  ∃ unknown,
    env_modules env !! unknown = None ∧
    resolve_dependencies ms fuel self modules requested_modules
      = Some (Raise (LookupError unknown)).
Proof.
  intros env Hres Hreach Hname Hnone Hfuel.
  destruct (resolve_dependencies ms fuel self modules requested_modules)
    as [[selected|e]|] eqn:Hrun.
  - exfalso.
    destruct (resolve_dependencies_exactly_reachable _ _ _ _ _ _ Hrun)
      as (requested' & Hres' & Hiff).
    assert (requested' = requested) as ->.
    { pose proof (lookup_requested_resolves env _ _ [] Hres) as H1.
      pose proof (lookup_requested_resolves env _ _ [] Hres') as H2.
      rewrite H1 in H2. by injection H2. }
    apply Hiff in Hreach.
    destruct (resolve_dependencies_closed _ _ _ _ _ _ Hrun m name Hreach Hname)
      as (dep & Hdep & _).
    fold env in Hdep. congruence.
  - revert Hrun. unfold resolve_dependencies. fold env.
    rewrite (lookup_requested_resolves env _ _ [] Hres). cbn [app].
    intros (unknown & Hunknown & ->)%closure_loop_Raise. eauto.
  - exfalso. revert Hrun. unfold resolve_dependencies. fold env.
    rewrite (lookup_requested_resolves env _ _ [] Hres). cbn [app].
    destruct (closure_loop_terminates ms env fuel requested [] requested) as [r Hr].
    { apply NoDup_nil_2. }
    { by intros ? ?%elem_of_nil. }
    { simpl. lia. }
    rewrite app_nil_r in Hr. by rewrite Hr.
Qed.

Lemma resolve_dependencies_unknown_dependency_witness :
  ∃ unknown,
    env_modules (environment Example.gated) !! unknown = None ∧
    resolve_dependencies Sample.dangling 4 Example.gated ∅ ["r:A"]
      = Some (Raise (LookupError unknown)).
Proof.
  apply (resolve_dependencies_unknown_dependency Sample.dangling 4 Example.gated ∅
           ["r:A"] [0] 1 "r:D").
  - by repeat constructor.
  - apply (reachable_dependency _ _ _ 0 "r:B"); [apply reachable_root; left | left | reflexivity].
  - left.
  - reflexivity.
  - vm_compute. lia.
Defined.

(** ** Availability gate: what it leaves alone, how it fails, running it twice *)

Lemma last_such_that {A} (P : A → Prop) (l : list A) :
  (∀ x, x ∈ l → P x ∨ ¬ P x) →
  (∀ x, x ∈ l → ¬ P x) ∨
  ∃ l1 x l2, l = l1 ++ x :: l2 ∧ P x ∧ ∀ y, y ∈ l2 → ¬ P y.
Proof.
  induction l as [|x l IH]; intros Hdec.
  - left. by intros x ?%elem_of_nil.
  - destruct IH as [Hnone|(l1 & y & l2 & -> & Hy & Hafter)].
    + intros y Hy. apply Hdec. by right.
    + destruct (Hdec x) as [Hx|Hx]; [left| |].
      * right. exists [], x, l. by split_and!.
      * left. intros y [->|Hy]%elem_of_cons; [done | by apply Hnone].
    + right. exists (x :: l1), y, l2. by split_and!.
Qed.

Section gate_more.
Variable ms : ref → Module_.
Variable call_prepare : callback → ref → Repository → list (string * ref) → result bool.
Variable options : list (string * ref).

Local Abbreviation qname := (module_qualified_name ms).
Local Abbreviation returned repo m b :=
  (run_prepare ms call_prepare options repo m = Ok b).
Local Abbreviation step := (gate ms call_prepare options).

Lemma for_each_gate_returned l env env' :
  for_each step l env = Ok env' →
  ∀ repo m, (repo, m) ∈ l → ∃ b, returned repo m b.
Proof.
  revert env. induction l as [|rm l IH]; intros env; simpl.
  - by intros _ repo m ?%elem_of_nil.
  - destruct (step env rm) as [env1|e] eqn:Hgate; simpl; [|done].
    intros Hrest repo m [Heq|Hin]%elem_of_cons; [|by apply (IH env1)].
    subst rm. apply gate_inv in Hgate as (b & Hb & _). eauto.
Qed.

Lemma for_each_gate_Raise before repo m after env e :
  (∀ rm, rm ∈ before → ∃ b, returned rm.1 rm.2 b) →
  run_prepare ms call_prepare options repo m = Raise e →
  for_each step (before ++ (repo, m) :: after) env = Raise e.
Proof.
  intros Hbefore Hraise. rewrite for_each_app.
  destruct (for_each_gate_total ms call_prepare options before env Hbefore)
    as [env1 ->].
  cbn [rbind for_each]. unfold gate at 1, gate_module. cbn [fst snd].
  by rewrite Hraise.
Qed.

Lemma for_each_gate_twice l env env' :
  for_each step l env = Ok env' → for_each step l env' = Ok env'.
Proof.
  intros Hrun.
  pose proof (for_each_gate_returned _ _ _ Hrun) as Hret.
  destruct (for_each_gate_total ms call_prepare options l env') as [env'' Hrun'].
  { intros [repo m]. apply Hret. }
  rewrite Hrun'. f_equal. apply map_eq. intros q.
  destruct (last_such_that (λ rm, returned rm.1 rm.2 true ∧ qname rm.1 rm.2 = q) l)
    as [Hnone|(l1 & [repo m] & l2 & -> & [Hav Hq] & Hafter)].
  - intros [repo m] [b Hb]%Hret. cbn [fst snd]. rewrite Hb.
    destruct b; [|right; by intros [[=] _]].
    destruct (decide (qname repo m = q)); [by left | right; by intros [_ ?]].
  - apply (for_each_gate_untouched _ _ _ _ _ _ _ Hrun').
    intros repo m Hin Hav Hq. by apply (Hnone (repo, m)).
  - cbn [fst snd] in *. subst q.
    assert (∀ repo' m', (repo', m') ∈ l2 → returned repo' m' true →
              qname repo' m' ≠ qname repo m) as Hfree.
    { intros repo' m' Hin Hav' Hq. by apply (Hafter (repo', m')). }
    rewrite (for_each_gate_last _ _ _ _ _ _ _ _ _ Hrun' Hav Hfree).
    by rewrite (for_each_gate_last _ _ _ _ _ _ _ _ _ Hrun Hav Hfree).
Qed.

Local Abbreviation step_in_place :=
  (λ env (rm : Repository * ref),
     gate_module_in_place ms call_prepare options rm.1 env rm.2).

Lemma for_each_in_place_app {A S} (body : S → A → result unit * S)
    (l1 l2 : list A) (s : S) :
  for_each_in_place body (l1 ++ l2) s =
    match for_each_in_place body l1 s with
    | (Ok _, s1) => for_each_in_place body l2 s1
    | (Raise e, s1) => (Raise e, s1)
    end.
Proof.
  revert s. induction l1 as [|x l1 IH]; intros s; simpl.
  - by destruct (for_each_in_place body l2 s) as [[[]|e] s1].
  - destruct (body s x) as [[[]|e] s1]; [apply IH | done].
Qed.

Lemma prepare_modules_in_place_gating_order self :
  prepare_modules_in_place ms call_prepare self options =
    let '(outcome, env) :=
      for_each_in_place step_in_place (gating_order self)
        (env_modules (environment self)) in
    (match outcome with Ok _ => Ok env | Raise e => Raise e end,
     {| repositories := repositories self;
        modules := modules self;
        environment := {| env_modules := env |} |}).
Proof.
  unfold prepare_modules_in_place, gating_order.
  assert (∀ repos env,
            for_each_in_place
              (λ env0 repo,
                 for_each_in_place
                   (gate_module_in_place ms call_prepare options repo)
                   (dict_values (repo_modules repo)) env0) repos env =
            for_each_in_place step_in_place
              (repos ≫= λ repo, pair repo <$> dict_values (repo_modules repo)) env)
    as ->; [|done].
  induction repos as [|repo repos IH]; intros env; [done|].
  rewrite bind_cons, for_each_in_place_app. cbn [for_each_in_place].
  assert (∀ l env0,
            for_each_in_place (gate_module_in_place ms call_prepare options repo) l env0 =
            for_each_in_place step_in_place (pair repo <$> l) env0) as Hinner.
  { induction l as [|m l IHl]; intros env0; [done|].
    rewrite fmap_cons. cbn [for_each_in_place fst snd].
    destruct (gate_module_in_place _ _ _ _ _ _) as [[[]|e] env1]; [apply IHl | done]. }
  rewrite Hinner.
  destruct (for_each_in_place step_in_place _ env) as [[[]|e] env1]; [apply IH | done].
Qed.

(** Where the gate returns, the loop in place leaves the Environment it
    returns. *)
Lemma for_each_gate_in_place_Ok l env env' :
  for_each step l env = Ok env' →
  for_each_in_place step_in_place l env = (Ok (), env').
Proof.
  revert env. induction l as [|rm l IH]; intros env; simpl.
  - by intros [= <-].
  - destruct (step env rm) as [env1|e] eqn:Hgate; simpl; [|done].
    intros Hrest. apply gate_inv in Hgate as (b & Hb & ->).
    unfold gate_module_in_place. rewrite Hb.
    destruct b; by apply IH.
Qed.

(** Where a [prepare] raises, the loop in place stops with the Environment
    the modules before it have left. *)
Lemma for_each_gate_in_place_Raise before repo m after env env1 e :
  for_each step before env = Ok env1 →
  run_prepare ms call_prepare options repo m = Raise e →
  for_each_in_place step_in_place (before ++ (repo, m) :: after) env = (Raise e, env1).
Proof.
  intros Hbefore Hraise.
  rewrite for_each_in_place_app, (for_each_gate_in_place_Ok _ _ _ Hbefore).
  cbn [for_each_in_place fst snd]. unfold gate_module_in_place. by rewrite Hraise.
Qed.

(** On every run, the loops in place end as [prepare_modules] does; on a
    run that returns they leave the parser it returns. *)
Lemma prepare_modules_in_place_agrees self :
  match prepare_modules ms call_prepare self options with
  | Ok self' =>
      prepare_modules_in_place ms call_prepare self options =
        (Ok (env_modules (environment self')), self')
  | Raise e =>
      (prepare_modules_in_place ms call_prepare self options).1 = Raise e
  end.
Proof.
  rewrite prepare_modules_gating_order, prepare_modules_in_place_gating_order.
  generalize (env_modules (environment self)).
  induction (gating_order self) as [|rm l IH]; intros env; [done|].
  cbn [for_each]. unfold gate at 1, gate_module, gate_module_in_place.
  cbn [for_each_in_place].
  destruct (run_prepare ms call_prepare options rm.1 rm.2) as [[]|e];
    cbn [rbind]; [apply IH | apply IH | done].
Qed.

End gate_more.

(** X5. [prepare_modules] changes nothing but the Environment, and there
    only the entries under the qualified names of the modules whose
    [prepare] returned true: every other entry is as it was, and no entry
    is ever removed. *)
Theorem prepare_modules_leaves_the_rest
    (ms : ref → Module_)
    (call_prepare : callback → ref → Repository → list (string * ref) → result bool)
    (self self' : Parser) (options : list (string * ref)) :
  prepare_modules ms call_prepare self options = Ok self' →
  repositories self' = repositories self ∧
  modules self' = modules self ∧
  (∀ q, (∀ repo m, (repo, m) ∈ gating_order self →
           run_prepare ms call_prepare options repo m = Ok true →
           module_qualified_name ms repo m ≠ q) →
        env_modules (environment self') !! q = env_modules (environment self) !! q) ∧
  (∀ q, is_Some (env_modules (environment self) !! q) →
        is_Some (env_modules (environment self') !! q)).
Proof.
  rewrite prepare_modules_gating_order.
  destruct (for_each _ _ _) as [env'|e] eqn:Hrun; simpl; [|done].
  intros [= <-]. cbn [repositories modules environment env_modules].
  split_and!; [done | done | |].
  - intros q Hfree. by apply (for_each_gate_untouched _ _ _ _ _ _ _ Hrun).
  - intros q. by apply (for_each_gate_keeps _ _ _ _ _ _ _ Hrun).
Qed.

(** X6. The first [prepare] callback that raises ends [prepare_modules]
    with that exception, and the modules after it are not gated: the
    Environment the loops leave in place is the one that gating the
    modules before it has produced, whatever comes after. In it every
    entry under a name that no available module before the raise carries
    is as it was, and the last available module before the raise that
    carries a name owns its entry. Repositories and module table are
    untouched. *)
Theorem prepare_modules_propagates_the_first_exception
    (ms : ref → Module_)
    (call_prepare : callback → ref → Repository → list (string * ref) → result bool)
    (self : Parser) (options : list (string * ref)) before repo m after e :
  gating_order self = before ++ (repo, m) :: after →
  (∀ repo' m', (repo', m') ∈ before →
     ∃ b, run_prepare ms call_prepare options repo' m' = Ok b) →
  run_prepare ms call_prepare options repo m = Raise e →
  prepare_modules ms call_prepare self options = Raise e ∧
  ∃ env,
    for_each (gate ms call_prepare options) before
      (env_modules (environment self)) = Ok env ∧
    prepare_modules_in_place ms call_prepare self options =
      (Raise e,
       {| repositories := repositories self;
          modules := modules self;
          environment := {| env_modules := env |} |}) ∧
    (∀ q, (∀ repo' m', (repo', m') ∈ before →
             run_prepare ms call_prepare options repo' m' = Ok true →
             module_qualified_name ms repo' m' ≠ q) →
          env !! q = env_modules (environment self) !! q) ∧
    (∀ l1 repo' m' l2,
       before = l1 ++ (repo', m') :: l2 →
       run_prepare ms call_prepare options repo' m' = Ok true →
       (∀ repo'' m'', (repo'', m'') ∈ l2 →
          run_prepare ms call_prepare options repo'' m'' = Ok true →
          module_qualified_name ms repo'' m'' ≠ module_qualified_name ms repo' m') →
       env !! module_qualified_name ms repo' m' = Some m').
Proof.
  intros Horder Hbefore Hraise.
  assert (∀ rm, rm ∈ before →
            ∃ b, run_prepare ms call_prepare options rm.1 rm.2 = Ok b) as Hret.
  { intros [repo' m']. apply Hbefore. }
  split.
  { rewrite prepare_modules_gating_order, Horder.
    by rewrite (for_each_gate_Raise ms call_prepare options before repo m after _ e). }
  destruct (for_each_gate_total ms call_prepare options before
              (env_modules (environment self)) Hret) as [env Hrun].
  exists env. split_and!; [done | | |].
  - rewrite prepare_modules_in_place_gating_order, Horder.
    by rewrite (for_each_gate_in_place_Raise ms call_prepare options
                  before repo m after _ env e).
  - intros q Hfree. by apply (for_each_gate_untouched _ _ _ _ _ _ _ Hrun).
  - intros l1 repo' m' l2 -> Hav Hfree.
    by apply (for_each_gate_last _ _ _ _ _ _ _ _ _ Hrun Hav Hfree).
Qed.

(** X7. Gating is idempotent: running [prepare_modules] again on the
    parser it returned returns that parser again. *)
Theorem prepare_modules_twice
    (ms : ref → Module_)
    (call_prepare : callback → ref → Repository → list (string * ref) → result bool)
    (self self' : Parser) (options : list (string * ref)) :
  prepare_modules ms call_prepare self options = Ok self' →
  prepare_modules ms call_prepare self' options = Ok self'.
Proof.
  rewrite !prepare_modules_gating_order.
  destruct (for_each _ _ _) as [env'|e] eqn:Hrun; simpl; [|done].
  intros [= <-]. unfold gating_order. cbn [repositories modules environment env_modules].
  fold (gating_order self).
  by rewrite (for_each_gate_twice _ _ _ _ _ _ Hrun).
Qed.

Lemma prepare_modules_leaves_the_rest_witness :
  ∃ self',
    prepare_modules Example.module_objects Example.call_prepare Example.parser []
      = Ok self' ∧
    env_modules (environment self') !! "ext:timer" = None.
Proof.
  destruct (prepare_modules Example.module_objects Example.call_prepare
              Example.parser []) as [self'|e] eqn:Hrun; [|by vm_compute in Hrun].
  exists self'. split; [done|].
  destruct (prepare_modules_leaves_the_rest _ _ _ _ _ Hrun) as (_ & _ & Hframe & _).
  rewrite Hframe; [reflexivity|].
  intros repo m Hin. apply list_elem_of_In in Hin. simpl in Hin.
  destruct Hin as [[= <- <-]|[[= <- <-]|[[= <- <-]|[[= <- <-]|[]]]]]; by vm_compute.
Defined.

Lemma prepare_modules_propagates_the_first_exception_witness :
  prepare_modules Example.module_objects Sample.failing_prepare Example.parser []
    = Raise (OtherError "no such option") ∧
  ∃ env,
    prepare_modules_in_place Example.module_objects Sample.failing_prepare
      Example.parser [] =
      (Raise (OtherError "no such option"),
       {| repositories := repositories Example.parser;
          modules := modules Example.parser;
          environment := {| env_modules := env |} |}) ∧
    env !! "ext:timer" = None.
Proof.
  destruct (prepare_modules_propagates_the_first_exception Example.module_objects
              Sample.failing_prepare Example.parser [] [(Example.core, 0)]
              Example.core 1 [(Example.core, 3); (Example.ext, 2)]
              (OtherError "no such option"))
    as (Hraise & env & _ & Hplace & Hframe & _).
  - reflexivity.
  - intros repo' m' Hin. apply list_elem_of_In in Hin. simpl in Hin.
    destruct Hin as [[= <- <-]|[]]. by eexists.
  - reflexivity.
  - split; [done|]. exists env. split; [done|].
    rewrite Hframe; [reflexivity|].
    intros repo' m' Hin. apply list_elem_of_In in Hin. simpl in Hin.
    destruct Hin as [[= <- <-]|[]]. by vm_compute.
Defined.

Lemma prepare_modules_twice_witness :
  ∃ self',
    prepare_modules Example.module_objects Example.call_prepare Example.parser []
      = Ok self' ∧
    prepare_modules Example.module_objects Example.call_prepare self' [] = Ok self'.
Proof.
  destruct (prepare_modules Example.module_objects Example.call_prepare
              Example.parser []) as [self'|e] eqn:Hrun; [|by vm_compute in Hrun].
  exists self'. split; [done|].
  apply (prepare_modules_twice _ _ _ _ _ Hrun).
Defined.

(** ** Option merge: what it keeps, what it leaves alone, running it twice *)

Section merge_more.
Variable repos : list (string * Repository).

Local Abbreviation by_full := (build_indices repos).1.
Local Abbreviation by_name := (build_indices repos).2.

(** What one step of the override loop does to an Option, whatever the
    outcome; the outcome and the value written do not depend on the
    store. *)
Lemma apply_override_effect entry (s t : ref → Option) :
  (apply_override by_full by_name entry s).1 =
  (apply_override by_full by_name entry t).1 ∧
  ∀ o,
    ((apply_override by_full by_name entry s).2 o = s o ∧
     (apply_override by_full by_name entry t).2 o = t o) ∨
    (∃ option_name,
       split colon entry.1 = [""; option_name] ∧
       o ∈ declared_as repos option_name ∧
       (apply_override by_full by_name entry s).2 o =
         {| opt_name := opt_name (s o); opt_value := Some entry.2 |} ∧
       (apply_override by_full by_name entry t).2 o =
         {| opt_name := opt_name (t o); opt_value := Some entry.2 |}).
Proof.
  destruct entry as [config_name value]. cbn [fst snd].
  destruct (split colon config_name) as [|p1 [|p2 [|p3 [|p4 ps]]]] eqn:Hsplit.
  1, 2, 4, 5: unfold apply_override; cbv zeta; rewrite Hsplit; cbn [fst snd]; by auto.
  destruct (decide (p1 = "")) as [->|Hne].
  - rewrite !(apply_override_wildcard _ _ _ _ p2 Hsplit).
    destruct (declared_as repos p2) as [|o1 options] eqn:Hdecl; [by auto|].
    split; [done|]. intros o. cbn [snd]. rewrite !set_values_lookup.
    case_decide; [|by left]. right. exists p2. by rewrite Hdecl.
  - rewrite !(apply_override_qualified _ _ _ _ _ p1 p2 Hsplit Hne). by auto.
Qed.

Lemma apply_overrides_effect config (s t : ref → Option) :
  (apply_overrides by_full by_name config s).1 =
  (apply_overrides by_full by_name config t).1 ∧
  ∀ o,
    ((apply_overrides by_full by_name config s).2 o = s o ∧
     (apply_overrides by_full by_name config t).2 o = t o) ∨
    (∃ entry option_name,
       entry ∈ config ∧
       split colon entry.1 = [""; option_name] ∧
       o ∈ declared_as repos option_name ∧
       (apply_overrides by_full by_name config s).2 o =
         {| opt_name := opt_name (s o); opt_value := Some entry.2 |} ∧
       (apply_overrides by_full by_name config t).2 o =
         {| opt_name := opt_name (t o); opt_value := Some entry.2 |}).
Proof.
  revert s t. induction config as [|entry config IH]; intros s t; cbn [apply_overrides].
  - split; [done|]. intros o. by left.
  - destruct (apply_override_effect entry s t) as [Hout Hstep].
    destruct (apply_override by_full by_name entry s) as [[[]|e] s1];
      destruct (apply_override by_full by_name entry t) as [[[]|e'] t1];
      cbn [fst snd] in *; try done.
    + destruct (IH s1 t1) as [Hout' Hrest]. split; [done|]. intros o.
      destruct (Hrest o) as [[Hs Ht]|(e2 & on & Hin & Hsplit & Hdecl & Hs & Ht)].
      * rewrite Hs, Ht.
        destruct (Hstep o) as [?|(on & Hsplit & Hdecl & Hs1 & Ht1)]; [by left|].
        right. exists entry, on. split_and!; [left | done..].
      * right. exists e2, on. rewrite Hs, Ht. split_and!; [by right | done | done | |].
        -- destruct (Hstep o) as [[-> _]|(? & _ & _ & -> & _)]; done.
        -- destruct (Hstep o) as [[_ ->]|(? & _ & _ & _ & ->)]; done.
    + split; [done|]. intros o.
      destruct (Hstep o) as [?|(on & Hsplit & Hdecl & Hs1 & Ht1)]; [by left|].
      right. exists entry, on. split_and!; [left | done..].
Qed.

Lemma check_values_ext (s t : ref → Option) (options : list ref) :
  (∀ o, t o = s o) → check_values t options = check_values s options.
Proof.
  intros Heq. induction options as [|o options IH]; simpl; [done|].
  by rewrite Heq, IH.
Qed.

End merge_more.

Lemma merge_repository_options_store self config s :
  (merge_repository_options self config s).2 =
  (apply_overrides (build_indices (repositories self)).1
     (build_indices (repositories self)).2 config s).2.
Proof.
  rewrite merge_repository_options_unfold. cbv zeta.
  destruct (apply_overrides _ _ config s) as [[[]|e] s']; [|done].
  by destruct (check_values _ _).
Qed.

(** X8. The merge never renames an Option and never takes a value away:
    whatever its outcome, every Option keeps its name, and an Option that
    had a value still has one. *)
Theorem merge_keeps_names_and_values self config s (o : ref) :
  let s' := (merge_repository_options self config s).2 in
  opt_name (s' o) = opt_name (s o) ∧
  (is_Some (opt_value (s o)) → is_Some (opt_value (s' o))).
Proof.
  intros s'. subst s'. rewrite merge_repository_options_store.
  destruct (apply_overrides_effect (repositories self) config s s) as [_ Heff].
  destruct (Heff o) as [[-> _]|(entry & on & _ & _ & _ & -> & _)]; [done|].
  split; [done | by eexists].
Qed.

(** X9. The merge changes only Options that a wildcard entry names:
    whatever its outcome, an Option that is not declared under the bare
    name of any wildcard key of [config_options] is left as it was. *)
Theorem merge_leaves_other_options self config s (o : ref) :
  (∀ entry option_name,
     entry ∈ config → split colon entry.1 = [""; option_name] →
     o ∉ declared_as (repositories self) option_name) →
  (merge_repository_options self config s).2 o = s o.
Proof.
  intros Hfree. rewrite merge_repository_options_store.
  destruct (apply_overrides_effect (repositories self) config s s) as [_ Heff].
  destruct (Heff o) as [[-> _]|(entry & on & Hin & Hsplit & Hdecl & _)]; [done|].
  by destruct (Hfree entry on).
Qed.

Lemma merge_leaves_other_options_witness :
  (merge_repository_options Example.parser [(":arch", "avr"); ("speed", "slow")]
     Example.options).2 1 = Example.options 1.
Proof.
  apply merge_leaves_other_options.
  intros entry option_name Hin. apply list_elem_of_In in Hin. simpl in Hin.
  destruct Hin as [<-|[<-|[]]]; cbn [fst]; intros [= <-] Hdecl.
  apply list_elem_of_In in Hdecl. vm_compute in Hdecl. intuition discriminate.
Defined.

(** X10. The merge is idempotent: run again with the same overrides on the
    Options it left, it ends the same way (the same index or the same
    exception) and leaves every Option as it is. *)
Theorem merge_twice self config s :
  let first := merge_repository_options self config s in
  let second := merge_repository_options self config first.2 in
  second.1 = first.1 ∧ ∀ o, second.2 o = first.2 o.
Proof.
  intros first second. subst first second.
  rewrite (merge_repository_options_store self config s).
  set (repos := repositories self).
  set (first := apply_overrides (build_indices repos).1 (build_indices repos).2 config s).
  destruct (apply_overrides_effect repos config s first.2) as [Hout Heff].
  fold first in Hout, Heff.
  assert (∀ o, (apply_overrides (build_indices repos).1 (build_indices repos).2
                  config first.2).2 o = first.2 o) as Hsame.
  { intros o. destruct (Heff o) as [[_ ->]|(entry & on & _ & _ & _ & Hs & ->)]; [done|].
    rewrite Hs. done. }
  split.
  - rewrite !merge_repository_options_unfold. cbv zeta. fold repos first.
    destruct (apply_overrides _ _ config first.2) as [r2 s2] eqn:Hsecond.
    cbn [fst snd] in *. destruct first as [r1 s1]. cbn [fst snd] in *. subst r2.
    destruct r1 as [[]|e]; [|done].
    rewrite (check_values_ext s1 s2) by done. by destruct (check_values _ _).
  - intros o. rewrite merge_repository_options_store. fold repos.
    apply Hsame.
Qed.

Lemma dict_get_elem_of {V} (d : list (string * V)) k v :
  NoDup (dict_keys d) → (k, v) ∈ d → dict_get d k = Some v.
Proof.
  unfold dict_keys. induction d as [|[k0 v0] d IH]; simpl.
  - by intros _ ?%elem_of_nil.
  - intros [Hfresh Hnd]%list.NoDup_cons [[= -> ->]|Hin]%elem_of_cons.
    + by rewrite decide_True.
    + rewrite decide_False; [by apply IH|].
      intros ->. apply Hfresh. apply list_elem_of_fmap. by exists (k0, v).
Qed.

(** X11. When the qualified names of the declared Options are pairwise
    distinct, the index a successful merge returns lists the declared
    Options in declaration order, each under its qualified name, so that
    looking up ['repository:option'] in it gives that repository's
    Option. *)
Theorem merge_returns_the_declared_options self config s index s' :
  let repos := repositories self in
  NoDup (qualified_option_names repos) →
  merge_repository_options self config s = (Ok index, s') →
  index = (λ d, (qualified d.1 d.2.1, d.2.2)) <$> declarations repos ∧
  ∀ repo_name repo option_name o,
    (repo_name, repo) ∈ repos → (option_name, o) ∈ repo_options repo →
    dict_get index (qualified repo_name option_name) = Some o.
Proof.
  intros repos Hnd. rewrite merge_repository_options_unfold. cbv zeta. fold repos.
  destruct (apply_overrides _ _ config s) as [[[]|e] s1]; [|done].
  destruct (check_values _ _); [|done]. intros [= <- <-].
  assert ((build_indices repos).1 =
          (λ d, (qualified d.1 d.2.1, d.2.2)) <$> declarations repos) as ->.
  { rewrite build_indices_declarations, by_full_name_fold. simpl.
    by rewrite by_full_name_fresh. }
  split; [done|]. intros rn repo cn o Hrepo Ho.
  apply dict_get_elem_of.
  - unfold dict_keys. rewrite <- list_fmap_compose. exact Hnd.
  - apply list_elem_of_fmap. exists (rn, (cn, o)). split; [done|].
    apply elem_of_declarations. eauto.
Qed.

Lemma merge_returns_the_declared_options_witness :
  ∃ index s',
    merge_repository_options Example.parser [(":arch", "avr")] Example.options
      = (Ok index, s') ∧
    dict_get index "ext:arch" = Some 2.
Proof.
  destruct (merge_repository_options Example.parser [(":arch", "avr")] Example.options)
    as [[index|e] s'] eqn:Hrun; [|by vm_compute in Hrun].
  exists index, s'. split; [done|].
  assert (NoDup (qualified_option_names (repositories Example.parser))) as Hnd
    by (refine (bool_decide_unpack (NoDup _) _); by vm_compute).
  destruct (merge_returns_the_declared_options _ _ _ _ _ Hnd Hrun) as [_ Hlookup].
  apply (Hlookup "ext" Example.ext "arch" 2); [right; left | left].
Defined.

(** X12. A wildcard override [':<option>'] whose option no loaded
    repository declares ends the merge with [KeyError]; the overrides
    before it stay applied, those after it are not looked at. *)
Theorem wildcard_for_undeclared_option_raises_KeyError
    self pre config_name value post s s1 option_name :
  let repos := repositories self in
  split colon config_name = [""; option_name] →
  (∀ repo_name repo o,
     (repo_name, repo) ∈ repos → (option_name, o) ∉ repo_options repo) →
  apply_overrides (build_indices repos).1 (build_indices repos).2 pre s
    = (Ok (), s1) →
  merge_repository_options self (pre ++ (config_name, value) :: post) s =
    (Raise (KeyError option_name), s1).
Proof.
  intros repos Hsplit Hnone Hpre.
  rewrite merge_repository_options_unfold. cbv zeta. fold repos.
  rewrite apply_overrides_app, Hpre. cbn [apply_overrides].
  rewrite (apply_override_wildcard _ _ _ _ _ Hsplit).
  destruct (declared_as repos option_name) as [|o options] eqn:Hdecl; [done|].
  exfalso.
  assert (o ∈ declared_as repos option_name) as Hin by (rewrite Hdecl; left).
  apply elem_of_declared_as in Hin as (rn & repo & Hrepo & Ho).
  by apply (Hnone rn repo o).
Qed.

Lemma wildcard_for_undeclared_option_raises_KeyError_witness :
  (merge_repository_options Example.parser
     [(":arch", "avr"); (":clock", "16")] Example.options).1
    = Raise (KeyError "clock").
Proof.
  refine (f_equal fst
            (wildcard_for_undeclared_option_raises_KeyError Example.parser
               [(":arch", "avr")] ":clock" "16" [] Example.options
               (foldl (set_value "avr") Example.options [0; 2]) "clock"
               eq_refl _ eq_refl)).
  intros rn repo o Hin. apply list_elem_of_In in Hin. simpl in Hin.
  destruct Hin as [[= <- <-]|[[= <- <-]|[]]]; intros Ho;
    apply list_elem_of_In in Ho; simpl in Ho; intuition discriminate.
Defined.

(** ** Module loading: how it fails *)

(** X13. Whatever goes wrong while a module is loaded, [_parse_module]
    raises a [BlobException] whose message is ["While parsing '<file>': "]
    followed by the text of the cause: so for a definition unit that
    cannot be read or executed, and so for an [init] that raises. *)
Theorem parse_module_wraps_every_failure
    exec_unit dirname call_init repo modulefile :
  let load := _parse_module exec_unit dirname call_init repo modulefile in
  let wrapped cause :=
    BlobException
      ("While parsing '" +:+ modulefile +:+ "': " +:+ str_of_exn cause) in
  (∀ e, load = Raise e → ∃ cause, e = wrapped cause) ∧
  (∀ cause, exec_unit modulefile = Raise cause → load = Raise (wrapped cause)) ∧
  (∀ local init prepare build cause,
     exec_unit modulefile = Ok local →
     local !! "init" = Some init →
     local !! "prepare" = Some prepare →
     local !! "build" = Some build →
     call_init init
       (loaded_functions (Module_new repo modulefile (dirname modulefile))
          init prepare build) = Raise cause →
     load = Raise (wrapped cause)).
Proof.
  intros load wrapped. subst load wrapped. unfold _parse_module. split_and!.
  - intros e. destruct (parse_module_body _ _ _ _ _) as [m|cause]; [done|].
    intros [= <-]. eauto.
  - intros cause Hexec. unfold parse_module_body. by rewrite Hexec.
  - intros local init prepare build cause Hexec Hi Hp Hb Hinit.
    unfold parse_module_body. rewrite Hexec. cbn [rbind].
    rewrite (get_functions_all local _ init prepare build Hi Hp Hb). cbn [rbind].
    destruct (loaded_functions_lookup
                (Module_new repo modulefile (dirname modulefile)) init prepare build)
      as (-> & _ & _).
    cbn [rbind]. by rewrite Hinit.
Qed.

Lemma parse_module_wraps_every_failure_witness :
  _parse_module Example.exec_unit Example.dirname Example.call_init Example.core
    "core/missing.lb"
  = Raise (BlobException "While parsing 'core/missing.lb': No such file or directory")
  ∧ _parse_module Example.exec_unit Example.dirname Sample.failing_init Example.core
      "core/uart.lb"
    = Raise (BlobException "While parsing 'core/uart.lb': name 'modul' is not defined").
Proof.
  split.
  - apply (proj1 (proj2 (parse_module_wraps_every_failure Example.exec_unit
             Example.dirname Example.call_init Example.core "core/missing.lb"))
             (OtherError "No such file or directory")).
    reflexivity.
  - apply (proj2 (proj2 (parse_module_wraps_every_failure Example.exec_unit
             Example.dirname Sample.failing_init Example.core "core/uart.lb"))
             (<["init" := 0]> (<["prepare" := 1]> (<["build" := 2]> ∅)))
             0 1 2 (OtherError "name 'modul' is not defined")); reflexivity.
Defined.

(** ** The project document *)

Lemma dict_set_NoDup {V} (d : list (string * V)) k v :
  NoDup (dict_keys d) → NoDup (dict_keys (dict_set d k v)).
Proof.
  unfold dict_keys. induction d as [|[k0 v0] d IH]; simpl.
  - intros _. apply NoDup_singleton.
  - intros [Hfresh Hnd]%list.NoDup_cons.
    case_decide; subst; simpl; apply list.NoDup_cons; [done|].
    split; [|by apply IH].
    intros [->|Hin]%(dict_keys_set (V := V)); [done | by apply Hfresh].
Qed.

Lemma for_each_concat {A S} (body : S → A → result S) (ls : list (list A)) (s : S) :
  for_each (λ s l, for_each body l s) ls s = for_each body (concat ls) s.
Proof.
  revert s. induction ls as [|l ls IH]; intros s; simpl; [done|].
  rewrite for_each_app. destruct (for_each body l s); simpl; [apply IH | done].
Qed.

Lemma for_each_require_module texts requested_modules requested :
  for_each require_module texts requested_modules = Ok requested →
  ∃ names, texts = Some <$> names ∧ requested = requested_modules ++ names ∧
    Forall (λ name, length (split colon name) = 2) names.
Proof.
  revert requested_modules.
  induction texts as [|[name|] texts IH]; intros requested_modules; simpl.
  - intros [= <-]. exists []. by rewrite app_nil_r.
  - case_decide as Hlen; simpl; [done|].
    intros (names & -> & -> & Hall)%IH. exists (name :: names).
    rewrite <- app_assoc. split_and!; [done | done | by constructor].
  - done.
Qed.

Lemma for_each_require_module_Ok names requested_modules :
  Forall (λ name, length (split colon name) = 2) names →
  for_each require_module (Some <$> names) requested_modules
    = Ok (requested_modules ++ names).
Proof.
  intros Hall. revert requested_modules.
  induction Hall as [|name names Hlen _ IH]; intros requested_modules; simpl.
  - by rewrite app_nil_r.
  - rewrite decide_False by (by intros ?). simpl. rewrite IH. by rewrite <- app_assoc.
Qed.

Lemma for_each_read_option nodes config_options config_options' :
  for_each read_option nodes config_options = Ok config_options' →
  (NoDup (dict_keys config_options) → NoDup (dict_keys config_options')) ∧
  (∀ k, k ∈ dict_keys config_options' →
     k ∈ dict_keys config_options ∨
     ∃ attrib, attrib ∈ nodes ∧ dict_get attrib "name" = Some k) ∧
  (∀ k, (∀ attrib, attrib ∈ nodes → dict_get attrib "name" ≠ Some k) →
     dict_get config_options' k = dict_get config_options k).
Proof.
  revert config_options. induction nodes as [|attrib nodes IH]; intros config_options; simpl.
  - intros [= <-]. split_and!; [done | by left | done].
  - unfold read_option at 1, dict_getitem.
    destruct (dict_get attrib "value") as [value|] eqn:Hvalue; simpl; [|done].
    destruct (dict_get attrib "name") as [name|] eqn:Hname; simpl; [|done].
    intros (Hnd & Hkeys & Hother)%IH. split_and!.
    + intros Hnd0. by apply Hnd, dict_set_NoDup.
    + intros k [[->|Hk]%dict_keys_set|(a & Ha & Hk)]%Hkeys.
      * right. exists attrib. split; [left | done].
      * by left.
      * right. exists a. split; [by right | done].
    + intros k Hfree. rewrite Hother.
      * rewrite dict_get_set. rewrite decide_False; [done|].
        intros ->. apply (Hfree attrib); [left | done].
      * intros a Ha. apply Hfree. by right.
Qed.

(** X14. When [parse_configuration] returns, the requested names are the
    texts of the [module] elements in document order, and each of them
    splits at [':'] into exactly two parts. *)
Theorem parse_configuration_requested_modules
    load_document configfile doc requested_modules config_options :
  load_document configfile = inr doc →
  parse_configuration load_document configfile
    = Ok (requested_modules, config_options) →
  concat (doc_modules doc) = Some <$> requested_modules ∧
  ∀ modulename, modulename ∈ requested_modules →
    ∃ repo_name module_name, split colon modulename = [repo_name; module_name].
Proof.
  intros Hload. unfold parse_configuration, read_document. rewrite Hload.
  rewrite for_each_concat.
  destruct (for_each require_module _ _) as [requested|e] eqn:Hreq; simpl; [|done].
  apply for_each_require_module in Hreq as (names & Htexts & -> & Hall).
  destruct (doc_options doc) as [node|]; simpl; [|done].
  destruct (for_each read_option node []) as [opts|e]; simpl; [|done].
  intros [= <- <-]. split; [done|].
  intros modulename Hin. rewrite list.Forall_forall in Hall. specialize (Hall _ Hin).
  destruct (split colon modulename) as [|p1 [|p2 [|p3 ps]]]; try done. eauto.
Qed.

Lemma parse_configuration_requested_modules_witness :
  ∃ requested_modules config_options,
    parse_configuration Sample.load_document "project.xml"
      = Ok (requested_modules, config_options) ∧
    concat (doc_modules Sample.project) = Some <$> requested_modules.
Proof.
  destruct (parse_configuration Sample.load_document "project.xml")
    as [[requested_modules config_options]|e] eqn:Hrun; [|by vm_compute in Hrun].
  exists requested_modules, config_options. split; [done|].
  apply (parse_configuration_requested_modules Sample.load_document "project.xml"
           Sample.project requested_modules config_options eq_refl Hrun).
Defined.

(** X15. The first [module] element whose text does not contain exactly one
    [':'] ends [parse_configuration] with the configuration error that
    names it. *)
Theorem parse_configuration_rejects_module_name
    load_document configfile doc before modulename after :
  load_document configfile = inr doc →
  concat (doc_modules doc) = (Some <$> before) ++ Some modulename :: after →
  Forall (λ name, length (split colon name) = 2) before →
  length (split colon modulename) ≠ 2 →
  parse_configuration load_document configfile
    = Raise (BlobException (modulename_msg modulename)).
Proof.
  intros Hload Htexts Hbefore Hlen. unfold parse_configuration, read_document.
  rewrite Hload, for_each_concat, Htexts, for_each_app.
  rewrite (for_each_require_module_Ok _ _ Hbefore). cbn [rbind for_each require_module].
  by rewrite decide_True.
Qed.

Lemma parse_configuration_rejects_module_name_witness :
  parse_configuration Sample.load_document "misnamed.xml"
  = Raise (BlobException
      "Modulename 'uart' must contain exactly one ':' as separator between repository and module name").
Proof.
  apply (parse_configuration_rejects_module_name Sample.load_document "misnamed.xml"
           Sample.misnamed ["core:timer"] "uart" [Some "ext:timer:x"]);
    [reflexivity | reflexivity | | by vm_compute].
  by repeat constructor.
Defined.

(** X16. The overrides [parse_configuration] returns have pairwise distinct
    names, each the [name] of an [option] element, and for a name that
    several elements carry the value is that of the last one. *)
Theorem parse_configuration_options
    load_document configfile doc requested_modules config_options :
  load_document configfile = inr doc →
  parse_configuration load_document configfile
    = Ok (requested_modules, config_options) →
  ∃ nodes,
    doc_options doc = Some nodes ∧
    NoDup (dict_keys config_options) ∧
    (∀ name, name ∈ dict_keys config_options →
       ∃ attrib, attrib ∈ nodes ∧ dict_get attrib "name" = Some name) ∧
    (∀ before attrib after name value,
       nodes = before ++ attrib :: after →
       dict_get attrib "name" = Some name →
       dict_get attrib "value" = Some value →
       (∀ later, later ∈ after → dict_get later "name" ≠ Some name) →
       dict_get config_options name = Some value).
Proof.
  intros Hload. unfold parse_configuration, read_document. rewrite Hload.
  destruct (for_each _ (doc_modules doc) []) as [requested|e]; simpl; [|done].
  destruct (doc_options doc) as [nodes|]; simpl; [|done].
  destruct (for_each read_option nodes []) as [opts|e] eqn:Hopts; simpl; [|done].
  intros [= <- <-]. exists nodes. split; [done|].
  pose proof (for_each_read_option _ _ _ Hopts) as (Hnd & Hkeys & _).
  split_and!.
  - apply Hnd. apply NoDup_nil_2.
  - intros name [Hin|?]%Hkeys; [|done]. by apply elem_of_nil in Hin.
  - intros before attrib after name value -> Hname Hvalue Hlater.
    rewrite for_each_app in Hopts.
    destruct (for_each read_option before []) as [opts1|e]; simpl in Hopts; [|done].
    unfold read_option at 1, dict_getitem in Hopts. rewrite Hvalue in Hopts.
    cbn [rbind] in Hopts. rewrite Hname in Hopts.
    cbn [rbind] in Hopts.
    apply for_each_read_option in Hopts as (_ & _ & Hother).
    rewrite (Hother name Hlater), dict_get_set. by rewrite decide_True.
Qed.

Lemma parse_configuration_options_witness :
  ∃ requested_modules config_options,
    parse_configuration Sample.load_document "project.xml"
      = Ok (requested_modules, config_options) ∧
    dict_get config_options "core:arch" = Some "arm".
Proof.
  destruct (parse_configuration Sample.load_document "project.xml")
    as [[requested_modules config_options]|e] eqn:Hrun; [|by vm_compute in Hrun].
  exists requested_modules, config_options. split; [done|].
  destruct (parse_configuration_options Sample.load_document "project.xml"
              Sample.project requested_modules config_options eq_refl Hrun)
    as (nodes & Hnodes & _ & _ & Hlast).
  injection Hnodes as <-.
  apply (Hlast [[("name", "core:arch"); ("value", "avr")];
                [("name", ":speed"); ("value", "slow")]]
           [("name", "core:arch"); ("value", "arm")] []);
    [reflexivity | reflexivity | reflexivity |].
  by intros later ?%elem_of_nil.
Defined.

(** ** Repository loading *)

Lemma dict_set_app_fresh {V} (d1 d2 : list (string * V)) k v0 v :
  k ∉ dict_keys d1 → dict_set (d1 ++ (k, v0) :: d2) k v = d1 ++ (k, v) :: d2.
Proof.
  unfold dict_keys. induction d1 as [|[k1 v1] d1 IH]; simpl.
  - intros _. by rewrite decide_True.
  - intros [Hne Hfresh]%not_elem_of_cons. rewrite decide_False by done.
    by rewrite IH.
Qed.

Section repository_facts.
Variable exec_unit : string → result (gmap string callback).
Variable dirname : string → string.
Variable call_init : callback → Module_ → result Module_.
Variable call_repo_prepare : callback → RepositoryDef → result RepositoryDef.

Local Abbreviation modules_loop :=
  (load_modules exec_unit dirname call_init).
Local Abbreviation definition :=
  (repository_definition exec_unit dirname call_repo_prepare).
Local Abbreviation parse :=
  (parse_repository exec_unit dirname call_init call_repo_prepare).

Lemma parse_module_Ok_name repo modulefile m :
  _parse_module exec_unit dirname call_init repo modulefile = Ok m →
  is_Some (mod_name m).
Proof.
  unfold _parse_module, parse_module_body.
  destruct (exec_unit modulefile) as [local|e]; cbn [rbind]; [|done].
  destruct (get_functions _ _ _) as [m0|e]; cbn [rbind]; [|done].
  destruct (mod_functions m0 !! "init") as [f|]; cbn [rbind]; [|done].
  destruct (call_init f m0) as [m1|e]; cbn [rbind]; [|done].
  destruct (mod_name m1) eqn:Hname; [|done]. intros [= <-]. by rewrite Hname.
Qed.

(** What the loop over the modules leaves alone, whatever its outcome. *)
Lemma load_modules_frame name items repo st :
  let st' := (modules_loop name items repo st).2 in
  repositories (ld_parser st') = repositories (ld_parser st) ∧
  environment (ld_parser st') = environment (ld_parser st) ∧
  ld_next st ≤ ld_next st' ∧
  ∀ m, m < ld_next st → ld_objects st' m = ld_objects st m.
Proof.
  revert repo st. induction items as [|[modulefile [m0|]] items IH]; intros repo st;
    cbn [load_modules].
  - done.
  - apply IH.
  - destruct (_parse_module _ _ _ _ _) as [m|e]; [|done].
    destruct (IH (set_module repo modulefile (ld_next st))
                 (register_module st (qualified name (pct_s (mod_name m))) m))
      as (Hrepos & Henv & Hnext & Hobjects).
    cbn [register_module ld_parser ld_objects ld_next repositories environment] in *.
    split_and!; [done | done | lia |].
    intros r Hr. rewrite Hobjects by lia. apply fn_lookup_insert_ne. lia.
Qed.

Lemma load_modules_name name items repo st repo' st' :
  modules_loop name items repo st = (Ok repo', st') →
  def_name repo' = def_name repo ∧ def_options repo' = def_options repo ∧
  def_path repo' = def_path repo.
Proof.
  revert repo st. induction items as [|[modulefile [m0|]] items IH]; intros repo st;
    cbn [load_modules].
  - by intros [= <- <-].
  - apply IH.
  - destruct (_parse_module _ _ _ _ _) as [m|e]; [|done].
    intros (-> & -> & ->)%IH. done.
Qed.

Lemma repository_definition_name repofile name repo :
  definition repofile = Ok (name, repo) → def_name repo = Some name.
Proof.
  unfold repository_definition, repository_definition_body.
  destruct (exec_unit repofile) as [local|e]; cbn [rbind]; [|done].
  destruct (local !! "prepare") as [f|]; cbn [rbind]; [|done].
  destruct (call_repo_prepare f _) as [repo0|e]; cbn [rbind]; [|done].
  destruct (def_name repo0) eqn:Hname; [|done]. by intros [= <- <-].
Qed.

End repository_facts.

Section repository_results.
Variable exec_unit : string → result (gmap string callback).
Variable dirname : string → string.
Variable call_init : callback → Module_ → result Module_.
Variable call_repo_prepare : callback → RepositoryDef → result RepositoryDef.

Local Abbreviation modules_loop :=
  (load_modules exec_unit dirname call_init).
Local Abbreviation definition :=
  (repository_definition exec_unit dirname call_repo_prepare).
Local Abbreviation parse :=
  (parse_repository exec_unit dirname call_init call_repo_prepare).
Local Abbreviation load_module := (_parse_module exec_unit dirname call_init).

Local Abbreviation entry_loaded :=
  (loaded_entry exec_unit dirname call_init).

Lemma load_modules_loaded name loaded items repo st repo' st' :
  def_name repo = Some name →
  def_modules repo = loaded ++ items →
  NoDup (dict_keys (loaded ++ items)) →
  modules_loop name items repo st = (Ok repo', st') →
  ∃ items', def_modules repo' = loaded ++ items' ∧
    Forall2 (entry_loaded name st st') items items'.
Proof.
  revert loaded repo st.
  induction items as [|[modulefile [m0|]] items IH]; intros loaded repo st Hname Hmods Hnd;
    cbn [load_modules].
  - intros [= <- <-]. exists []. split; [done | constructor].
  - intros Hloop.
    destruct (IH (loaded ++ [(modulefile, Some m0)]) repo st) as (items' & Hmods' & Hall);
      [done | by rewrite <- app_assoc | by rewrite <- app_assoc | done |].
    exists ((modulefile, Some m0) :: items'). rewrite <- app_assoc in Hmods'.
    split; [done|]. constructor; [|done].
    split; [done|]. exists m0. split; [done | by left].
  - destruct (load_module (loaded_view repo) modulefile) as [m|e] eqn:Hload; [|done].
    intros Hloop.
    pose proof (load_modules_frame exec_unit dirname call_init name items
                  (set_module repo modulefile (ld_next st))
                  (register_module st (qualified name (pct_s (mod_name m))) m))
      as (_ & _ & Hnext & Hobjects).
    rewrite Hloop in Hnext, Hobjects.
    cbn [snd register_module ld_next ld_objects] in Hnext, Hobjects.
    destruct (IH (loaded ++ [(modulefile, Some (ld_next st))])
                 (set_module repo modulefile (ld_next st))
                 (register_module st (qualified name (pct_s (mod_name m))) m))
      as (items' & Hmods' & Hall); [done | | | done |].
    + cbn [set_module def_modules]. rewrite Hmods, <- app_assoc.
      apply dict_set_app_fresh. unfold dict_keys in *.
      rewrite fmap_app in Hnd. apply list.NoDup_app in Hnd as (_ & Hdisj & _).
      intros Hin. apply (Hdisj _ Hin). left.
    + unfold dict_keys in *. rewrite <- app_assoc. by rewrite !fmap_app in *.
    + exists ((modulefile, Some (ld_next st)) :: items'). rewrite <- app_assoc in Hmods'.
      split; [done|]. constructor.
      * split; [done|]. exists (ld_next st). split; [done|]. right.
        split_and!; [done | done | lia |].
        exists (loaded_view repo). split; [done|].
        rewrite Hobjects by lia. by rewrite fn_lookup_insert.
      * eapply list.Forall2_impl; [exact Hall|].
        intros item item' (Hfile & r & Hr & [?|(Hnone & Hrange & Hview)]).
        -- split; [done|]. exists r. split; [done | by left].
        -- split; [done|]. exists r. split; [done|]. right.
           cbn [register_module ld_next] in Hrange. split_and!; [done | lia | lia | done].
Qed.

Lemma parse_repository_unfold repofile st :
  parse repofile st =
    match definition repofile with
    | Raise e => (Raise e, st)
    | Ok (name, repo) =>
        match modules_loop name (def_modules repo) repo st with
        | (Raise e, st') => (Raise e, st')
        | (Ok repo', st') =>
            match dict_get (repositories (ld_parser st')) name with
            | Some _ => (Raise (BlobException (ambiguous_msg name)), st')
            | None =>
                (Ok (loaded_view repo'),
                 register_repository st' name (loaded_view repo'))
            end
        end
    end.
Proof. done. Qed.

(** X17. A repository definition that cannot be executed, that has no
    [prepare], whose [prepare] raises or leaves the name unset is
    rejected with ["Invalid repository configuration file '<file>': "]
    and the text of the cause; nothing has been loaded or registered
    then. *)
Theorem parse_repository_rejects_definition repofile st :
  let invalid cause :=
    BlobException ("Invalid repository configuration file '" +:+ repofile +:+
                   "': " +:+ str_of_exn cause) in
  (∀ cause, exec_unit repofile = Raise cause →
     parse_repository exec_unit dirname call_init call_repo_prepare repofile st
       = (Raise (invalid cause), st)) ∧
  (∀ local, exec_unit repofile = Ok local → local !! "prepare" = None →
     parse_repository exec_unit dirname call_init call_repo_prepare repofile st
       = (Raise (invalid (BlobException "No prepare() function found!")), st)) ∧
  (∀ local prepare cause,
     exec_unit repofile = Ok local → local !! "prepare" = Some prepare →
     call_repo_prepare prepare (Repository_new (dirname repofile)) = Raise cause →
     parse_repository exec_unit dirname call_init call_repo_prepare repofile st
       = (Raise (invalid cause), st)) ∧
  (∀ local prepare repo,
     exec_unit repofile = Ok local → local !! "prepare" = Some prepare →
     call_repo_prepare prepare (Repository_new (dirname repofile)) = Ok repo →
     def_name repo = None →
     parse_repository exec_unit dirname call_init call_repo_prepare repofile st
       = (Raise (invalid (BlobException no_repo_name_msg)), st)).
Proof.
  intros invalid. subst invalid. rewrite parse_repository_unfold.
  unfold repository_definition, repository_definition_body. split_and!.
  - intros cause ->. done.
  - intros local -> Hnone. cbn [rbind]. by rewrite Hnone.
  - intros local prepare cause -> Hprepare Hcall. cbn [rbind].
    rewrite Hprepare. cbn [rbind]. by rewrite Hcall.
  - intros local prepare repo -> Hprepare Hcall Hname. cbn [rbind].
    rewrite Hprepare. cbn [rbind]. rewrite Hcall. cbn [rbind]. by rewrite Hname.
Qed.

(** X18. Whatever the outcome of [parse_repository], the Environment, the
    Module objects that existed before and the repositories that were
    registered before are as they were; new Module objects get new
    identities. *)
Theorem parse_repository_keeps_what_was_loaded repofile st :
  let st' :=
    (parse_repository exec_unit dirname call_init call_repo_prepare repofile st).2 in
  environment (ld_parser st') = environment (ld_parser st) ∧
  ld_next st ≤ ld_next st' ∧
  (∀ m, m < ld_next st → ld_objects st' m = ld_objects st m) ∧
  (∀ name repo, dict_get (repositories (ld_parser st)) name = Some repo →
                dict_get (repositories (ld_parser st')) name = Some repo).
Proof.
  rewrite parse_repository_unfold.
  destruct (definition repofile) as [[name repo]|e]; [|done].
  pose proof (load_modules_frame exec_unit dirname call_init name (def_modules repo)
                repo st) as (Hrepos & Henv & Hnext & Hobjects).
  destruct (modules_loop name (def_modules repo) repo st) as [[repo'|e] st1];
    cbn [snd] in *.
  - destruct (dict_get (repositories (ld_parser st1)) name) eqn:Hdup; cbn [snd].
    + split_and!; [done | done | done |]. intros n r0. by rewrite Hrepos.
    + cbn [register_repository ld_parser ld_objects ld_next environment repositories].
      split_and!; [done | done | done |]. intros n r0 Hn.
      rewrite dict_get_set, Hrepos. rewrite decide_False; [done|].
      intros ->. rewrite Hrepos in Hdup. congruence.
  - split_and!; [done | done | done |]. intros n r0. by rewrite Hrepos.
Qed.

(** X19. A [parse_repository] that fails registers no repository. *)
Theorem parse_repository_failure_registers_nothing repofile st e st' :
  parse_repository exec_unit dirname call_init call_repo_prepare repofile st
    = (Raise e, st') →
  repositories (ld_parser st') = repositories (ld_parser st).
Proof.
  rewrite parse_repository_unfold.
  destruct (definition repofile) as [[name repo]|e0]; [|by intros [= _ <-]].
  pose proof (load_modules_frame exec_unit dirname call_init name (def_modules repo)
                repo st) as (Hrepos & _).
  destruct (modules_loop name (def_modules repo) repo st) as [[repo'|e1] st1];
    cbn [snd] in *; [|by intros [= _ <-]].
  destruct (dict_get (repositories (ld_parser st1)) name); [|done].
  by intros [= _ <-].
Qed.

(** X20. A repository whose name is that of a registered repository is
    rejected with the "ambiguous" configuration error, after its modules
    have been loaded. *)
Theorem parse_repository_rejects_duplicate_name
    repofile st name repo repo' st' registered :
  repository_definition exec_unit dirname call_repo_prepare repofile
    = Ok (name, repo) →
  load_modules exec_unit dirname call_init name (def_modules repo) repo st
    = (Ok repo', st') →
  dict_get (repositories (ld_parser st)) name = Some registered →
  parse_repository exec_unit dirname call_init call_repo_prepare repofile st
    = (Raise (BlobException (ambiguous_msg name)), st').
Proof.
  intros Hdef Hloop Hdup. rewrite parse_repository_unfold, Hdef, Hloop.
  pose proof (load_modules_frame exec_unit dirname call_init name (def_modules repo)
                repo st) as (Hrepos & _).
  rewrite Hloop in Hrepos. cbn [snd] in Hrepos. by rewrite Hrepos, Hdup.
Qed.

(** X21. When [parse_repository] returns a repository, that repository has
    a name, no repository was registered under this name before, and it
    is now registered under it, after the repositories that were there;
    the names of the registered repositories stay pairwise distinct. *)
Theorem parse_repository_registers repofile st repo st' :
  parse_repository exec_unit dirname call_init call_repo_prepare repofile st
    = (Ok repo, st') →
  ∃ name,
    repo_name repo = Some name ∧
    dict_get (repositories (ld_parser st)) name = None ∧
    repositories (ld_parser st') = repositories (ld_parser st) ++ [(name, repo)] ∧
    dict_get (repositories (ld_parser st')) name = Some repo ∧
    (NoDup (dict_keys (repositories (ld_parser st))) →
     NoDup (dict_keys (repositories (ld_parser st')))).
Proof.
  rewrite parse_repository_unfold.
  destruct (definition repofile) as [[name def]|e0] eqn:Hdef; [|done].
  apply repository_definition_name in Hdef.
  pose proof (load_modules_frame exec_unit dirname call_init name (def_modules def)
                def st) as (Hrepos & _).
  destruct (modules_loop name (def_modules def) def st) as [[def'|e1] st1] eqn:Hloop;
    cbn [snd] in *; [|done].
  apply load_modules_name in Hloop as (Hname & _).
  destruct (dict_get (repositories (ld_parser st1)) name) eqn:Hnew; [done|].
  intros [= <- <-]. exists name.
  cbn [register_repository ld_parser repositories loaded_view repo_name].
  rewrite Hrepos in *. split_and!.
  - congruence.
  - done.
  - apply dict_set_fresh. by apply dict_get_None.
  - rewrite dict_get_set. by rewrite decide_True.
  - intros Hnd. by apply dict_set_NoDup.
Qed.

(** X22. When [parse_repository] returns a repository whose definition
    listed each loading unit once, the repository has a module for every
    loading unit of the definition, in the same order, and each is a
    Module object: one the definition supplied, or a new one holding what
    [_parse_module] returned for the unit. *)
Theorem parse_repository_loads_every_module repofile st repo st' name def :
  parse_repository exec_unit dirname call_init call_repo_prepare repofile st
    = (Ok repo, st') →
  repository_definition exec_unit dirname call_repo_prepare repofile
    = Ok (name, def) →
  NoDup (dict_keys (def_modules def)) →
  dict_keys (repo_modules repo) = dict_keys (def_modules def) ∧
  ∀ modulefile m, (modulefile, m) ∈ repo_modules repo →
    ∃ item, item ∈ def_modules def ∧
      loaded_entry exec_unit dirname call_init name st st' item
        (modulefile, Some m).
Proof.
  rewrite parse_repository_unfold. intros Hrun Hdef Hnd. rewrite Hdef in Hrun.
  apply repository_definition_name in Hdef.
  destruct (modules_loop name (def_modules def) def st) as [[def'|e1] st1] eqn:Hloop;
    [|done].
  destruct (load_modules_loaded name [] _ _ _ _ _ Hdef eq_refl Hnd Hloop)
    as (items' & Hmods & Hall).
  destruct (dict_get (repositories (ld_parser st1)) name); [done|].
  injection Hrun as <- <-. cbn [loaded_view repo_modules]. rewrite Hmods. cbn [app].
  clear Hmods Hloop Hnd.
  assert (Forall2 (entry_loaded name st (register_repository st1 name (loaded_view def')))
            (def_modules def) items') as Hall' by done.
  clear Hall. revert Hall'. generalize (def_modules def). intros items Hall.
  induction Hall as [|item item' items items' Hentry _ [IHk IHm]].
  - split; [done|]. by intros ? ? ?%elem_of_nil.
  - destruct item' as [file' o']. pose proof Hentry as (Hfile & m' & Ho & _).
    cbn [fst snd] in Hfile, Ho. subst o' file'. cbn [omap list_omap fst snd fmap option_fmap option_map].
    split.
    + unfold dict_keys in *. rewrite !fmap_cons. cbn [fst]. f_equal. exact IHk.
    + intros file m [[= -> ->]|Hin]%elem_of_cons.
      * exists item. split; [left | done].
      * destruct (IHm file m Hin) as (item0 & Hin0 & Hentry0).
        exists item0. split; [by right | done].
Qed.

End repository_results.

Lemma parse_repository_rejects_definition_witness :
  Sample.load "void/repo.lb" Sample.fresh =
    (Raise (BlobException
       "Invalid repository configuration file 'void/repo.lb': No prepare() function found!"),
     Sample.fresh)
  ∧ (Sample.load "anon/repo.lb" Sample.fresh).1 =
    Raise (BlobException
      "Invalid repository configuration file 'anon/repo.lb': The prepare(repo) function must set a repo name! Please use the set_name() method.").
Proof.
  destruct (parse_repository_rejects_definition Sample.exec_unit Example.dirname
              Example.call_init Sample.call_repo_prepare "void/repo.lb" Sample.fresh)
    as (_ & Hvoid & _).
  destruct (parse_repository_rejects_definition Sample.exec_unit Example.dirname
              Example.call_init Sample.call_repo_prepare "anon/repo.lb" Sample.fresh)
    as (_ & _ & _ & Hanon).
  split.
  - apply (Hvoid ∅); reflexivity.
  - unfold Sample.load.
    rewrite (Hanon (<["prepare" := 22]> ∅) 22 (Repository_new "core"));
      reflexivity.
Defined.

Lemma parse_repository_keeps_what_was_loaded_witness :
  let st := (Sample.load "core/repo.lb" Sample.fresh).2 in
  let st' := (Sample.load "fork/repo.lb" st).2 in
  ld_objects st' 0 = ld_objects st 0 ∧
  dict_get (repositories (ld_parser st')) "core" =
  dict_get (repositories (ld_parser st)) "core".
Proof.
  intros st st'.
  destruct (parse_repository_keeps_what_was_loaded Sample.exec_unit Example.dirname
              Example.call_init Sample.call_repo_prepare "fork/repo.lb" st)
    as (_ & _ & Hobjects & Hrepos).
  split.
  - apply Hobjects. vm_compute. lia.
  - destruct (dict_get (repositories (ld_parser st)) "core") as [repo|] eqn:Hcore;
      [|by vm_compute in Hcore].
    by apply Hrepos.
Defined.

Lemma parse_repository_failure_registers_nothing_witness :
  let st := (Sample.load "core/repo.lb" Sample.fresh).2 in
  repositories (ld_parser (Sample.load "fork/repo.lb" st).2) =
  repositories (ld_parser st).
Proof.
  intros st.
  destruct (Sample.load "fork/repo.lb" st) as [[repo|e] st'] eqn:Hrun;
    [by vm_compute in Hrun|].
  apply (parse_repository_failure_registers_nothing _ _ _ _ _ _ _ _ Hrun).
Defined.

Lemma parse_repository_rejects_duplicate_name_witness :
  let st := (Sample.load "core/repo.lb" Sample.fresh).2 in
  (Sample.load "twin/repo.lb" st).1 =
    Raise (BlobException "Repository name 'core' is ambiguous. Name must be unique.")
  ∧ modules (ld_parser (Sample.load "twin/repo.lb" st).2) = [("core:uart", 1)].
Proof.
  intros st.
  destruct (repository_definition Sample.exec_unit Example.dirname
              Sample.call_repo_prepare "twin/repo.lb") as [[name def]|e] eqn:Hdef;
    [|by vm_compute in Hdef].
  destruct (load_modules Sample.exec_unit Example.dirname Example.call_init name
              (def_modules def) def st) as [[def'|e] st'] eqn:Hloop.
  2: { exfalso. vm_compute in Hdef. injection Hdef as <- <-. by vm_compute in Hloop. }
  destruct (dict_get (repositories (ld_parser st)) name) as [registered|] eqn:Hdup.
  2: { exfalso. vm_compute in Hdef. injection Hdef as <- <-. by vm_compute in Hdup. }
  unfold Sample.load.
  rewrite (parse_repository_rejects_duplicate_name _ _ _ _ _ _ _ _ _ _ _ Hdef Hloop Hdup).
  cbn [fst snd].
  vm_compute in Hdef. injection Hdef as <- <-. vm_compute in Hloop.
  injection Hloop as _ <-. split; reflexivity.
Defined.

Lemma parse_repository_registers_witness :
  ∃ repo st',
    Sample.load "core/repo.lb" Sample.fresh = (Ok repo, st') ∧
    dict_get (repositories (ld_parser st')) "core" = Some repo.
Proof.
  destruct (Sample.load "core/repo.lb" Sample.fresh) as [[repo|e] st'] eqn:Hrun;
    [|by vm_compute in Hrun].
  exists repo, st'. split; [done|].
  destruct (parse_repository_registers _ _ _ _ _ _ _ _ Hrun)
    as (name & Hname & _ & _ & Hget & _).
  vm_compute in Hrun. injection Hrun as <- _. injection Hname as <-. exact Hget.
Defined.

Lemma parse_repository_loads_every_module_witness :
  ∃ repo st',
    Sample.load "core/repo.lb" Sample.fresh = (Ok repo, st') ∧
    dict_keys (repo_modules repo) = ["core/uart.lb"].
Proof.
  destruct (Sample.load "core/repo.lb" Sample.fresh) as [[repo|e] st'] eqn:Hrun;
    [|by vm_compute in Hrun].
  exists repo, st'. split; [done|].
  destruct (repository_definition Sample.exec_unit Example.dirname
              Sample.call_repo_prepare "core/repo.lb") as [[name def]|e] eqn:Hdef;
    [|by vm_compute in Hdef].
  assert (NoDup (dict_keys (def_modules def))) as Hnd.
  { vm_compute in Hdef. injection Hdef as <- <-. apply NoDup_singleton. }
  destruct (parse_repository_loads_every_module _ _ _ _ _ _ _ _ _ _ Hrun Hdef Hnd)
    as [Hkeys _].
  rewrite Hkeys. vm_compute in Hdef. by injection Hdef as <- <-.
Defined.

Lemma merge_keeps_names_and_values_witness :
  let s' := (merge_repository_options Example.parser
               [(":arch", "avr"); ("speed", "slow")] Example.options).2 in
  opt_name (s' 1) = "speed" ∧ is_Some (opt_value (s' 1)).
Proof.
  intros s'.
  destruct (merge_keeps_names_and_values Example.parser
              [(":arch", "avr"); ("speed", "slow")] Example.options 1)
    as [Hname Hvalue].
  split; [exact Hname|]. apply Hvalue. by eexists.
Defined.

(** ** The stages together *)

(** X23. Repositories are gated in the order in which they were loaded:
    after a successful [parse_repository] the modules of the new
    repository come last in the gating order, behind the modules of the
    repositories that were registered before. *)
Theorem parse_repository_extends_gating_order
    exec_unit dirname call_init call_repo_prepare repofile st repo st' :
  parse_repository exec_unit dirname call_init call_repo_prepare repofile st
    = (Ok repo, st') →
  gating_order (ld_parser st') =
    gating_order (ld_parser st) ++ (pair repo <$> dict_values (repo_modules repo)).
Proof.
  rewrite parse_repository_unfold.
  destruct (repository_definition _ _ _ _) as [[name def]|e0]; [|done].
  pose proof (load_modules_frame exec_unit dirname call_init name (def_modules def)
                def st) as (Hrepos & _).
  destruct (load_modules _ _ _ name (def_modules def) def st) as [[def'|e1] st1];
    cbn [snd] in *; [|done].
  destruct (dict_get (repositories (ld_parser st1)) name) eqn:Hnew; [done|].
  intros [= <- <-]. unfold gating_order.
  cbn [register_repository ld_parser repositories].
  rewrite dict_set_fresh by (by apply dict_get_None).
  rewrite Hrepos. unfold dict_values. rewrite fmap_app, bind_app. f_equal.
  simpl. by rewrite app_nil_r.
Qed.

Lemma parse_repository_extends_gating_order_witness :
  ∃ repo st',
    Sample.load "core/repo.lb" Sample.fresh = (Ok repo, st') ∧
    gating_order (ld_parser st') = [(repo, 0)].
Proof.
  destruct (Sample.load "core/repo.lb" Sample.fresh) as [[repo|e] st'] eqn:Hrun;
    [|by vm_compute in Hrun].
  exists repo, st'. split; [done|].
  rewrite (parse_repository_extends_gating_order _ _ _ _ _ _ _ _ Hrun).
  vm_compute in Hrun. by injection Hrun as <- _.
Defined.

(** X24. A module that did not gate in cannot be requested: when no module
    whose [prepare] returned true has the qualified name and the
    Environment had no entry under it, requesting that name after
    [prepare_modules] fails with the lookup error for it. *)
Theorem gated_out_module_cannot_be_requested
    (ms : ref → Module_)
    (call_prepare : callback → ref → Repository → list (string * ref) → result bool)
    (self self' : Parser) (options : list (string * ref)) fuel modules name :
  prepare_modules ms call_prepare self options = Ok self' →
  env_modules (environment self) !! name = None →
  (∀ repo m, (repo, m) ∈ gating_order self →
     run_prepare ms call_prepare options repo m = Ok true →
     module_qualified_name ms repo m ≠ name) →
  resolve_dependencies ms fuel self' modules [name]
    = Some (Raise (LookupError name)).
Proof.
  rewrite prepare_modules_gating_order.
  destruct (for_each _ _ _) as [env'|e] eqn:Hrun; simpl; [|done].
  intros [= <-] Hnone Hfree.
  unfold resolve_dependencies, lookup_requested, get_module.
  cbn [environment env_modules].
  rewrite (for_each_gate_untouched _ _ _ _ _ _ _ Hrun Hfree), Hnone. done.
Qed.

Lemma gated_out_module_cannot_be_requested_witness :
  ∃ self',
    prepare_modules Example.module_objects Example.call_prepare Example.parser []
      = Ok self' ∧
    resolve_dependencies Example.module_objects 5 self' ∅ ["core:timer"]
      = Some (Raise (LookupError "core:timer")).
Proof.
  destruct (prepare_modules Example.module_objects Example.call_prepare
              Example.parser []) as [self'|e] eqn:Hrun; [|by vm_compute in Hrun].
  exists self'. split; [done|].
  apply (gated_out_module_cannot_be_requested _ _ _ _ _ _ _ _ Hrun); [reflexivity|].
  intros repo m Hin. apply list_elem_of_In in Hin. simpl in Hin.
  destruct Hin as [[= <- <-]|[[= <- <-]|[[= <- <-]|[[= <- <-]|[]]]]]; by vm_compute.
Defined.
